(** * downloader.py: the command line of the video downloader

    The script builds an [argparse.ArgumentParser] with one positional
    argument ([links], [nargs='+']) and three options ([-v/--verbosity],
    [-q/--quality], [-t/--threads]), parses [sys.argv[1:]] and, when
    [args.verbosity] is truthy, prints a three line summary.

    The script's behaviour is the behaviour of [parse_args] on the parser it
    declares, so the development embeds the parsing algorithm of the
    standard library module (CPython 3.11, [Lib/argparse.py]) restricted to
    the features the script uses: [store] and [help] actions, [nargs] equal
    to [None], an integer or ['+'], [type] equal to [None] or [int],
    [choices] given by a list or a [range].

    Conventions.
    - A command line token is a [string]; each character stands for one code
      point below 256.
    - Python values are the inductive [pyval].
    - Identity of objects ([is]) is rendered by equality of values; the
      only objects the parser compares so are the defaults of the actions
      and the constant [SUPPRESS].
    - The process is an [outcome]: either the script runs to its end with a
      namespace and what it printed, or it ends in [SystemExit] with a status
      and what was written to the two streams.  The text produced by the help
      formatter depends on the program name and on the width of the terminal;
      it is kept abstract as the chunks [format_usage] and [format_help]. *)

From Stdlib Require Import String Ascii List ZArith Lia Bool Arith DecimalString
  Permutation.
Import ListNotations.
Set Warnings "-register-all".
Open Scope string_scope.
Open Scope list_scope.

(** ** Strings *)

Module Str.

(** [c in s] *)
Fixpoint contains (c : ascii) (s : string) : bool :=
  match s with
  | EmptyString => false
  | String x s' => Ascii.eqb x c || contains c s'
  end.

(** [s.startswith(p)] *)
Definition startswith (s p : string) : bool := String.prefix p s.

(** [s.split(sep, 1)], used only when [sep in s]: the text before the
    first separator and the text after it. *)
Fixpoint split1 (sep : ascii) (s : string) : string * string :=
  match s with
  | EmptyString => (EmptyString, EmptyString)
  | String x s' =>
      if Ascii.eqb x sep then (EmptyString, s')
      else let '(a, b) := split1 sep s' in (String x a, b)
  end.

(** [sep.join(l)] *)
Fixpoint join (sep : string) (l : list string) : string :=
  match l with
  | [] => EmptyString
  | [x] => x
  | x :: l' => x ++ sep ++ join sep l'
  end.

Definition code (c : ascii) : nat := nat_of_ascii c.

Definition is_digit (c : ascii) : bool :=
  (48 <=? code c)%nat && (code c <=? 57)%nat.

Fixpoint all (p : ascii -> bool) (s : string) : bool :=
  match s with
  | EmptyString => true
  | String x s' => p x && all p s'
  end.

Fixpoint lstrip (p : ascii -> bool) (s : string) : string :=
  match s with
  | EmptyString => EmptyString
  | String x s' => if p x then lstrip p s' else s
  end.

End Str.

(** ** Python values *)

Inductive pyval : Type :=
| PyNone
| PyStr (s : string)
| PyInt (z : Z)
| PyList (l : list pyval).

(** [==] on the values above. *)
Fixpoint pyval_eqb (a b : pyval) {struct a} : bool :=
  match a, b with
  | PyNone, PyNone => true
  | PyStr s, PyStr t => String.eqb s t
  | PyInt x, PyInt y => Z.eqb x y
  | PyList l, PyList m =>
      (fix go (l m : list pyval) {struct l} : bool :=
         match l, m with
         | [], [] => true
         | x :: l', y :: m' => pyval_eqb x y && go l' m'
         | _, _ => false
         end) l m
  | _, _ => false
  end.

(** [bool(v)] *)
Definition truthy (v : pyval) : bool :=
  match v with
  | PyNone => false
  | PyStr s => negb (String.eqb s "")
  | PyInt z => negb (Z.eqb z 0)
  | PyList l => match l with [] => false | _ => true end
  end.

(** *** [int(s)] on a string, base 10

    Surrounding white space is dropped, one sign is allowed, digits may be
    separated by single underscores, and a literal of more than 4300 digits
    is refused.  [None] stands for [ValueError]. *)

Definition int_space (c : ascii) : bool :=
  let n := Str.code c in
  ((9 <=? n) && (n <=? 13) || (n =? 32) || (n =? 133) || (n =? 160))%nat.

Definition digit_value (c : ascii) : option Z :=
  if Str.is_digit c then Some (Z.of_nat (Str.code c) - 48)%Z else None.

Fixpoint scan_digits (s : string) (prev_underscore : bool) (acc : Z) (digits : nat)
  : option (Z * nat * string) :=
  match s with
  | EmptyString => if prev_underscore then None else Some (acc, digits, s)
  | String c s' =>
      if Ascii.eqb c "_" then
        if prev_underscore then None else scan_digits s' true acc digits
      else
        match digit_value c with
        | Some d => scan_digits s' false (10 * acc + d)%Z (S digits)
        | None => if prev_underscore then None else Some (acc, digits, s)
        end
  end.

Definition int_max_str_digits : nat := 4300.

Definition py_int (s : string) : option Z :=
  let s := Str.lstrip int_space s in
  let '(sign, s) :=
    match s with
    | String "+" r => (1%Z, r)
    | String "-" r => ((-1)%Z, r)
    | _ => (1%Z, s)
    end in
  match s with
  | String "_" _ => None
  | _ =>
      match scan_digits s false 0%Z 0 with
      | Some (n, digits, rest) =>
          if (digits =? 0)%nat then None
          else if (int_max_str_digits <? digits)%nat then None
          else if Str.all int_space rest then Some (sign * n)%Z
          else None
      | None => None
      end
  end.

(** *** [str(v)] and [repr(v)] *)

Definition hex_digit (n : nat) : ascii :=
  if (n <? 10)%nat then ascii_of_nat (48 + n) else ascii_of_nat (87 + n).

Definition printable (c : ascii) : bool :=
  let n := Str.code c in
  ((32 <=? n) && (n <? 127) || (161 <=? n) && negb (n =? 173))%nat.

Definition repr_char (quote c : ascii) : string :=
  if Ascii.eqb c quote || Ascii.eqb c "\" then String "\" (String c EmptyString)
  else if (Str.code c =? 9)%nat then "\t"
  else if (Str.code c =? 10)%nat then "\n"
  else if (Str.code c =? 13)%nat then "\r"
  else if printable c then String c EmptyString
  else String "\" (String "x"
         (String (hex_digit (Str.code c / 16))
            (String (hex_digit (Str.code c mod 16)) EmptyString))).

Fixpoint repr_chars (quote : ascii) (s : string) : string :=
  match s with
  | EmptyString => EmptyString
  | String c s' => repr_char quote c ++ repr_chars quote s'
  end.

Definition double_quote : ascii := ascii_of_nat 34.

Definition repr_str (s : string) : string :=
  let quote : ascii :=
    if Str.contains "'" s && negb (Str.contains double_quote s) then double_quote
    else "'"%char in
  String quote (repr_chars quote s) ++ String quote EmptyString.

Definition str_int (z : Z) : string := NilZero.string_of_int (Z.to_int z).

Fixpoint py_repr (v : pyval) : string :=
  match v with
  | PyNone => "None"
  | PyStr s => repr_str s
  | PyInt z => str_int z
  | PyList l => "[" ++ Str.join ", " (map py_repr l) ++ "]"
  end.

Definition py_str (v : pyval) : string :=
  match v with
  | PyStr s => s
  | _ => py_repr v
  end.

(** ** The parser declared by the script *)

(** The value of [nargs]: [None], an integer, or ['+']. *)
Inductive Nargs : Type :=
| nargs_None
| nargs_int (n : nat)
| ONE_OR_MORE.

(** The value of [type]: [None] (the identity on the string) or [int]. *)
Inductive TypeFunc : Type :=
| type_None
| type_int.

(** The value of [choices]: [None], a list, or a [range(lo, hi)]. *)
Inductive Choices : Type :=
| choices_None
| choices_list (l : list pyval)
| choices_range (lo hi : Z).

(** The actions of the parser, in the order of [parser._actions]: the help
    action that [ArgumentParser()] adds, then one per [add_argument]. *)
Inductive Action : Type :=
| help_action
| links_action
| verbosity_action
| quality_action
| threads_action.

Definition Action_eqb (a b : Action) : bool :=
  match a, b with
  | help_action, help_action
  | links_action, links_action
  | verbosity_action, verbosity_action
  | quality_action, quality_action
  | threads_action, threads_action => true
  | _, _ => false
  end.

Definition SUPPRESS : string := "==SUPPRESS==".

Definition _actions : list Action :=
  [help_action; links_action; verbosity_action; quality_action; threads_action].

Definition option_strings (a : Action) : list string :=
  match a with
  | help_action => ["-h"; "--help"]
  | links_action => []
  | verbosity_action => ["-v"; "--verbosity"]
  | quality_action => ["-q"; "--quality"]
  | threads_action => ["-t"; "--threads"]
  end.

Definition dest (a : Action) : string :=
  match a with
  | help_action => "help"
  | links_action => "links"
  | verbosity_action => "verbosity"
  | quality_action => "quality"
  | threads_action => "threads"
  end.

Definition nargs (a : Action) : Nargs :=
  match a with
  | help_action => nargs_int 0
  | links_action => ONE_OR_MORE
  | _ => nargs_None
  end.

Definition default (a : Action) : pyval :=
  match a with
  | help_action => PyStr SUPPRESS
  | quality_action => PyStr "720p"
  | threads_action => PyInt 1
  | _ => PyNone
  end.

Definition type (a : Action) : TypeFunc :=
  match a with
  | threads_action => type_int
  | _ => type_None
  end.

Definition choices (a : Action) : Choices :=
  match a with
  | quality_action => choices_list [PyStr "1080p"; PyStr "720p"; PyStr "480p"]
  | threads_action => choices_range 1 32
  | _ => choices_None
  end.

(** A positional whose [nargs] is neither ['?'] nor ['*'] is required; an
    option is required only on request. *)
Definition required (a : Action) : bool :=
  match a with
  | links_action => true
  | _ => false
  end.

Definition prefix_chars : string := "-".

(** [parser._option_string_actions], a dict in insertion order. *)
Definition _option_string_actions : list (string * Action) :=
  flat_map (fun a => map (fun s => (s, a)) (option_strings a)) _actions.

Definition _get_positional_actions : list Action :=
  filter (fun a => match option_strings a with [] => true | _ => false end) _actions.

Fixpoint dict_get {V : Type} (k : string) (d : list (string * V)) : option V :=
  match d with
  | [] => None
  | (k', v) :: d' => if String.eqb k' k then Some v else dict_get k d'
  end.

(** [value in action.choices] *)
Definition in_choices (v : pyval) (c : Choices) : bool :=
  match c with
  | choices_None => true
  | choices_list l => existsb (pyval_eqb v) l
  | choices_range lo hi =>
      match v with
      | PyInt z => (lo <=? z)%Z && (z <? hi)%Z
      | _ => false
      end
  end.

(** ** What the process writes and how it ends *)

(** The message of an error, before formatting. *)
Inductive message : Type :=
| expected_one_argument
| expected_at_least_one_argument
| expected_n_arguments (n : nat)
| invalid_choice (value : pyval) (among : Choices)
| invalid_value (type_name : string) (value : string)
| ignored_explicit_argument (arg : string)
| required_arguments (names : list string)
| unrecognized_arguments (argv : list string)
| ambiguous_option (option : string) (matches : list string)
| unexpected_option_string (option : string).

(** [ArgumentError(action, message)] *)
Inductive ArgumentError : Type :=
| Build_ArgumentError (argument : option Action) (msg : message).

(** One write to a stream. [error_line e] is the line
    ["prog: error: message"] that [parser.error] writes after the usage. *)
Inductive chunk : Type :=
| Text (s : string)
| format_usage
| format_help
| error_line (e : ArgumentError).

(** The result of a step of the parser: a value, a raised [ArgumentError],
    or [SystemExit] with what was written to standard output and to the
    error stream.  [Stuck] stands for what the Python code never does on
    this parser: a [KeyError] on a dict of the parser, an [IndexError], or
    the bounded loop of the model reaching its bound; [main_outcome]
    shows it is never the result of a run. *)
Inductive result (T : Type) : Type :=
| Return (x : T)
| Raise (e : ArgumentError)
| Exit (status : Z) (stdout stderr : list chunk)
| Stuck.

Arguments Return {T} x.
Arguments Raise {T} e.
Arguments Exit {T} status stdout stderr.
Arguments Stuck {T}.

Definition bind {T U : Type} (m : result T) (k : T -> result U) : result U :=
  match m with
  | Return x => k x
  | Raise e => Raise e
  | Exit st out err => Exit st out err
  | Stuck => Stuck
  end.

Declare Scope result_scope.
Delimit Scope result_scope with result.
Notation "x <- m ;; k" := (bind m (fun x => k))
  (at level 61, m at next level, right associativity) : result_scope.
Notation "' p <- m ;; k" := (bind m (fun x => let p := x in k))
  (at level 61, p pattern, m at next level, right associativity) : result_scope.
Notation "m ;;; k" := (bind m (fun _ => k))
  (at level 61, right associativity) : result_scope.
Open Scope result_scope.

(** [parser.exit(status)] with nothing to write, after [print_help()]. *)
Definition print_help_and_exit {T : Type} : result T :=
  Exit 0 [format_help] [].

(** [parser.error(message)]: the usage and the message on the error
    stream, then [sys.exit(2)]. *)
Definition error {T : Type} (e : ArgumentError) : result T :=
  Exit 2 [] [format_usage; error_line e].

(** ** Telling options from arguments *)

(** One letter of [arg_strings_pattern]: ['A'], ['O'] or ['-']. *)
Inductive pat : Type :=
| pat_A
| pat_O
| pat_dash.

Definition pat_eqb (a b : pat) : bool :=
  match a, b with
  | pat_A, pat_A | pat_O, pat_O | pat_dash, pat_dash => true
  | _, _ => false
  end.

(** [(action, option_string, explicit_arg)] *)
Definition option_tuple : Type := option Action * string * option string.

Definition in_prefix_chars (c : ascii) : bool := Str.contains c prefix_chars.

(** The text before a final newline: [$] also matches there. *)
Fixpoint chop_newline (s : string) : string :=
  match s with
  | EmptyString => EmptyString
  | String c s' =>
      match s' with
      | EmptyString => if (Str.code c =? 10)%nat then EmptyString else s
      | _ => String c (chop_newline s')
      end
  end.

Definition digits1 (s : string) : bool :=
  negb (String.eqb s "") && Str.all Str.is_digit s.

(** [parser._negative_number_matcher.match(s)], the pattern being
    [^-\d+$|^-\d*\.\d+$]. *)
Definition negative_number_like (s : string) : bool :=
  match s with
  | String "-" r =>
      let r := chop_newline r in
      digits1 r
      || (Str.contains "." r
          && (let '(a, b) := Str.split1 "." r in Str.all Str.is_digit a && digits1 b))
  | _ => false
  end.

Definition _has_negative_number_optionals : bool :=
  existsb (fun '(s, _) => negative_number_like s) _option_string_actions.

(** [_get_option_tuples(option_string)] for an option string of at least
    two characters, [c0] and [c1] being the first two. *)
Definition _get_option_tuples (c0 c1 : ascii) (tail : string)
  : result (list option_tuple) :=
  let option_string := String c0 (String c1 tail) in
  if in_prefix_chars c0 && in_prefix_chars c1 then
    (* allow_abbrev is True *)
    let '(option_prefix, explicit_arg) :=
      if Str.contains "=" option_string
      then let '(a, b) := Str.split1 "=" option_string in (a, Some b)
      else (option_string, None) in
    Return (flat_map
              (fun '(s, action) =>
                 if Str.startswith s option_prefix
                 then [(Some action, s, explicit_arg)] else [])
              _option_string_actions)
  else if in_prefix_chars c0 && negb (in_prefix_chars c1) then
    let option_prefix := option_string in
    let short_option_prefix := String c0 (String c1 EmptyString) in
    let short_explicit_arg := tail in
    Return (flat_map
              (fun '(s, action) =>
                 if String.eqb s short_option_prefix
                 then [(Some action, s, Some short_explicit_arg)]
                 else if Str.startswith s option_prefix
                 then [(Some action, s, None)] else [])
              _option_string_actions)
  else
    error (Build_ArgumentError None (unexpected_option_string option_string)).

(** [_parse_optional(arg_string)]: [None] for a positional, a tuple for an
    option (with no action when the option is unknown). *)
Definition _parse_optional (arg_string : string) : result (option option_tuple) :=
  match arg_string with
  | EmptyString => Return None
  | String c0 rest =>
      if negb (in_prefix_chars c0) then Return None
      else
        match dict_get arg_string _option_string_actions with
        | Some action => Return (Some (Some action, arg_string, None))
        | None =>
            match rest with
            | EmptyString => Return None
            | String c1 tail =>
                let split :=
                  if Str.contains "=" arg_string then
                    let '(option_string, explicit_arg) := Str.split1 "=" arg_string in
                    match dict_get option_string _option_string_actions with
                    | Some action => Some (Some action, option_string, Some explicit_arg)
                    | None => None
                    end
                  else None in
                match split with
                | Some t => Return (Some t)
                | None =>
                    option_tuples <- _get_option_tuples c0 c1 tail ;;
                    match option_tuples with
                    | _ :: _ :: _ =>
                        error (Build_ArgumentError None
                                 (ambiguous_option arg_string
                                    (map (fun t : option_tuple => snd (fst t)) option_tuples)))
                    | [t] => Return (Some t)
                    | [] =>
                        if negative_number_like arg_string
                           && negb _has_negative_number_optionals
                        then Return None
                        else if Str.contains " " arg_string then Return None
                        else Return (Some (None, arg_string, None))
                    end
                end
            end
        end
  end.

(** The first loop of [_parse_known_args]: [option_string_indices] (a dict
    keyed by position, in insertion order) and [arg_strings_pattern].
    After a ["--"] every string is an argument. *)
Fixpoint classify (i : nat) (arg_strings : list string)
  : result (list (nat * option_tuple) * list pat) :=
  match arg_strings with
  | [] => Return ([], [])
  | arg_string :: rest =>
      if String.eqb arg_string "--" then
        Return ([], pat_dash :: map (fun _ => pat_A) rest)
      else
        option_tuple <- _parse_optional arg_string ;;
        ' (indices, pattern) <- classify (S i) rest ;;
        match option_tuple with
        | None => Return (indices, pat_A :: pattern)
        | Some t => Return ((i, t) :: indices, pat_O :: pattern)
        end
  end.

(** ** Matching [nargs] against the pattern *)

(** The regular expressions of [_get_nargs_pattern] are sequences of
    letters, starred classes and group ends. *)
Inductive item : Type :=
| Lit (c : pat)
| Star (cs : list pat)
| GroupEnd.

(** A starred class, greedy: as many letters of [cs] as the rest of the
    expression, [k], allows. [len] is the length matched so far in the
    current group. *)
Fixpoint re_star (cs : list pat) (k : list pat -> nat -> option (list nat))
  (s : list pat) (len : nat) {struct s} : option (list nat) :=
  match s with
  | x :: s' =>
      if existsb (pat_eqb x) cs then
        match re_star cs k s' (S len) with
        | Some g => Some g
        | None => k s len
        end
      else k s len
  | [] => k s len
  end.

(** [re.match], with backtracking; the result is the length of each
    group. *)
Fixpoint re_match (r : list item) (s : list pat) (len : nat) {struct r}
  : option (list nat) :=
  match r with
  | [] => Some []
  | GroupEnd :: r' => option_map (cons len) (re_match r' s 0)
  | Lit c :: r' =>
      match s with
      | x :: s' => if pat_eqb x c then re_match r' s' (S len) else None
      | [] => None
      end
  | Star cs :: r' => re_star cs (re_match r') s len
  end.

Fixpoint join_A (n : nat) : list item :=
  match n with
  | 0 => []
  | S n' =>
      match n' with
      | 0 => [Lit pat_A]
      | _ => Lit pat_A :: Star [pat_dash] :: join_A n'
      end
  end.

Definition is_dash_star (i : item) : bool :=
  match i with
  | Star [pat_dash] => true
  | _ => false
  end.

Definition without_dash (i : item) : item :=
  match i with
  | Star cs => Star (filter (fun c => negb (pat_eqb c pat_dash)) cs)
  | _ => i
  end.

(** [_get_nargs_pattern(action)], without the parentheses of the group:
    [-*A-*] for [None], [-*A[A-]*] for ['+'], [-*A-*A...-*] for an
    integer; an option does not take ["--"], so [-*] and [-] are removed
    from its pattern. *)
Definition _get_nargs_pattern (action : Action) : list item :=
  let nargs_pattern :=
    match nargs action with
    | nargs_None => [Star [pat_dash]; Lit pat_A; Star [pat_dash]]
    | ONE_OR_MORE => [Star [pat_dash]; Lit pat_A; Star [pat_A; pat_dash]]
    | nargs_int n => Star [pat_dash] :: join_A n ++ [Star [pat_dash]]
    end in
  match option_strings action with
  | [] => nargs_pattern
  | _ => map without_dash (filter (fun i => negb (is_dash_star i)) nargs_pattern)
  end.

Definition nargs_error (action : Action) : message :=
  match nargs action with
  | nargs_None => expected_one_argument
  | ONE_OR_MORE => expected_at_least_one_argument
  | nargs_int n => expected_n_arguments n
  end.

(** [_match_argument(action, arg_strings_pattern)] *)
Definition _match_argument (action : Action) (arg_strings_pattern : list pat)
  : result nat :=
  match re_match (_get_nargs_pattern action ++ [GroupEnd]) arg_strings_pattern 0 with
  | None => Raise (Build_ArgumentError (Some action) (nargs_error action))
  | Some groups => Return (hd 0 groups)
  end.

(** [_match_arguments_partial(actions, arg_strings_pattern)]: the longest
    prefix [actions[:i]] whose patterns match, [i] going down to 1. *)
Fixpoint match_partial_upto (i : nat) (actions : list Action)
  (arg_strings_pattern : list pat) : list nat :=
  match i with
  | 0 => []
  | S i' =>
      let pattern :=
        flat_map (fun a => _get_nargs_pattern a ++ [GroupEnd]) (firstn i actions) in
      match re_match pattern arg_strings_pattern 0 with
      | Some groups => groups
      | None => match_partial_upto i' actions arg_strings_pattern
      end
  end.

Definition _match_arguments_partial (actions : list Action)
  (arg_strings_pattern : list pat) : list nat :=
  match_partial_upto (length actions) actions arg_strings_pattern.

(** ** Converting and checking values *)

(** [l.remove(x)]: the list without the first occurrence of [x], or the
    list itself when there is none. *)
Fixpoint remove_first (x : string) (l : list string) : list string :=
  match l with
  | [] => []
  | y :: l' => if String.eqb y x then l' else y :: remove_first x l'
  end.

Definition type_name (t : TypeFunc) : string :=
  match t with
  | type_None => "None"
  | type_int => "int"
  end.

(** [_get_value(action, arg_string)] *)
Definition _get_value (action : Action) (arg_string : string) : result pyval :=
  match type action with
  | type_None => Return (PyStr arg_string)
  | type_int =>
      match py_int arg_string with
      | Some z => Return (PyInt z)
      | None =>
          Raise (Build_ArgumentError (Some action)
                   (invalid_value (type_name (type action)) arg_string))
      end
  end.

(** [_check_value(action, value)] *)
Definition _check_value (action : Action) (value : pyval) : result unit :=
  if in_choices value (choices action) then Return tt
  else Raise (Build_ArgumentError (Some action)
                (invalid_choice value (choices action))).

Fixpoint get_each (action : Action) (arg_strings : list string)
  : result (list pyval) :=
  match arg_strings with
  | [] => Return []
  | v :: rest =>
      x <- _get_value action v ;;
      xs <- get_each action rest ;;
      Return (x :: xs)
  end.

Fixpoint check_each (action : Action) (values : list pyval) : result unit :=
  match values with
  | [] => Return tt
  | v :: rest => _check_value action v ;;; check_each action rest
  end.

(** [_get_values(action, arg_strings)]: the first ["--"] is removed; one
    string for an action with [nargs=None] gives a single value, anything
    else gives a list. *)
Definition _get_values (action : Action) (arg_strings : list string)
  : result pyval :=
  let arg_strings := remove_first "--" arg_strings in
  match nargs action, arg_strings with
  | nargs_None, [arg_string] =>
      value <- _get_value action arg_string ;;
      _check_value action value ;;;
      Return value
  | _, _ =>
      value <- get_each action arg_strings ;;
      check_each action value ;;;
      Return (PyList value)
  end.

(** ** The namespace *)

(** [vars(namespace)], a dict in insertion order. *)
Definition Namespace : Type := list (string * pyval).

Definition getattr (namespace : Namespace) (name : string) : option pyval :=
  dict_get name namespace.

Definition hasattr (namespace : Namespace) (name : string) : bool :=
  match getattr namespace name with
  | Some _ => true
  | None => false
  end.

Fixpoint setattr (namespace : Namespace) (name : string) (value : pyval)
  : Namespace :=
  match namespace with
  | [] => [(name, value)]
  | (k, v) :: rest =>
      if String.eqb k name then (k, value) :: rest
      else (k, v) :: setattr rest name value
  end.

(** ** Taking actions *)

(** What the nested functions of [_parse_known_args] share and update. *)
Record pstate : Type := {
  namespace : Namespace;
  seen_actions : list Action;
  positionals : list Action;
  extras : list string
}.

Inductive ActionClass : Type :=
| _StoreAction
| _HelpAction.

Definition action_class (a : Action) : ActionClass :=
  match a with
  | help_action => _HelpAction
  | _ => _StoreAction
  end.

(** [action(parser, namespace, values, option_string)] *)
Definition call (action : Action) (namespace : Namespace) (values : pyval)
  : result Namespace :=
  match action_class action with
  | _StoreAction => Return (setattr namespace (dest action) values)
  | _HelpAction => print_help_and_exit
  end.

(** [take_action(action, argument_strings)]. The parser has no mutually
    exclusive group, so no conflict is looked for. *)
Definition take_action (action : Action) (argument_strings : list string)
  (st : pstate) : result pstate :=
  let seen := action :: seen_actions st in
  argument_values <- _get_values action argument_strings ;;
  namespace' <- call action (namespace st) argument_values ;;
  Return {| namespace := namespace'; seen_actions := seen;
            positionals := positionals st; extras := extras st |}.

Definition action_tuple : Type := Action * list string * string.

Fixpoint take_actions (action_tuples : list action_tuple) (st : pstate)
  : result pstate :=
  match action_tuples with
  | [] => Return st
  | (action, args, _) :: rest =>
      st' <- take_action action args st ;;
      take_actions rest st'
  end.

Fixpoint osi_get (i : nat) (d : list (nat * option_tuple)) : option option_tuple :=
  match d with
  | [] => None
  | (k, t) :: d' => if (k =? i)%nat then Some t else osi_get i d'
  end.

(** [min(l)]; [None] stands for the [ValueError] on an empty list. *)
Definition list_min (l : list nat) : option nat :=
  match l with
  | [] => None
  | x :: l' => Some (fold_left Nat.min l' x)
  end.

(** [option_string[1] not in chars] *)
Definition single_dash (option_string : string) : bool :=
  match String.get 1 option_string with
  | Some c => negb (in_prefix_chars c)
  | None => false
  end.

Section ParseKnownArgs.

(** The closure of the nested functions of [_parse_known_args]. *)
Variable arg_strings : list string.
Variable option_string_indices : list (nat * option_tuple).
Variable arg_strings_pattern : list pat.

(** The option takes the strings that follow it. *)
Definition following (start_index : nat) (action : Action) (option_string : string)
  (action_tuples : list action_tuple) : result (list action_tuple * nat) :=
  let start := start_index + 1 in
  let selected_patterns := skipn start arg_strings_pattern in
  arg_count <- _match_argument action selected_patterns ;;
  let stop := start + arg_count in
  let args := firstn arg_count (skipn start arg_strings) in
  Return (action_tuples ++ [(action, args, option_string)], stop).

(** The turns of the [while True] loop of [consume_optional] in which
    [explicit_arg] is not [None]: either the action takes it, or the
    action takes nothing and the explicit argument is read as further
    single-dash options. *)
Fixpoint with_explicit (start_index : nat) (action : Action) (option_string : string)
  (explicit_arg : string) (action_tuples : list action_tuple) {struct explicit_arg}
  : result (list action_tuple * nat) :=
  arg_count <- _match_argument action [pat_A] ;;
  let otherwise : result (list action_tuple * nat) :=
    if (arg_count =? 1)%nat then
      Return (action_tuples ++ [(action, [explicit_arg], option_string)],
              start_index + 1)
    else
      Raise (Build_ArgumentError (Some action)
               (ignored_explicit_argument explicit_arg)) in
  match explicit_arg with
  | EmptyString => otherwise
  | String c rest =>
      if (arg_count =? 0)%nat && single_dash option_string then
        let action_tuples := action_tuples ++ [(action, [], option_string)] in
        match option_string with
        | EmptyString => Stuck
        | String char _ =>
            let option_string := String char (String c EmptyString) in
            match dict_get option_string _option_string_actions with
            | Some action' =>
                match rest with
                | EmptyString => following start_index action' option_string action_tuples
                | _ => with_explicit start_index action' option_string rest action_tuples
                end
            | None =>
                Raise (Build_ArgumentError (Some action)
                         (ignored_explicit_argument explicit_arg))
            end
        end
      else otherwise
  end.

(** [consume_optional(start_index)] *)
Definition consume_optional (start_index : nat) (st : pstate)
  : result (pstate * nat) :=
  match osi_get start_index option_string_indices with
  | None => Stuck
  | Some (None, _, _) =>
      match nth_error arg_strings start_index with
      | Some arg_string =>
          Return ({| namespace := namespace st; seen_actions := seen_actions st;
                     positionals := positionals st;
                     extras := extras st ++ [arg_string] |},
                  start_index + 1)
      | None => Stuck
      end
  | Some (Some action, option_string, explicit_arg) =>
      ' (action_tuples, stop) <-
        match explicit_arg with
        | Some e => with_explicit start_index action option_string e []
        | None => following start_index action option_string []
        end ;;
      st' <- take_actions action_tuples st ;;
      Return (st', stop)
  end.

Fixpoint take_positionals (l : list (Action * nat)) (start_index : nat)
  (st : pstate) : result (pstate * nat) :=
  match l with
  | [] => Return (st, start_index)
  | (action, arg_count) :: l' =>
      let args := firstn arg_count (skipn start_index arg_strings) in
      st' <- take_action action args st ;;
      take_positionals l' (start_index + arg_count) st'
  end.

(** [consume_positionals(start_index)] *)
Definition consume_positionals (start_index : nat) (st : pstate)
  : result (pstate * nat) :=
  let selected_pattern := skipn start_index arg_strings_pattern in
  let arg_counts := _match_arguments_partial (positionals st) selected_pattern in
  ' (st', stop) <- take_positionals (combine (positionals st) arg_counts) start_index st ;;
  Return ({| namespace := namespace st'; seen_actions := seen_actions st';
             positionals := skipn (length arg_counts) (positionals st');
             extras := extras st' |},
          stop).

Definition max_option_string_index : Z :=
  match map fst option_string_indices with
  | [] => (-1)%Z
  | k :: ks => Z.of_nat (fold_left Nat.max ks k)
  end.

(** One turn of the main loop, from [start_index] to the next one. *)
Definition loop_body (start_index : nat) (st : pstate) : result (pstate * nat) :=
  match list_min (filter (fun index => (start_index <=? index)%nat)
                    (map fst option_string_indices)) with
  | None => Stuck
  | Some next_option_string_index =>
      ' (st1, start1, continue) <-
        (if negb (start_index =? next_option_string_index)%nat then
           ' (st', positionals_end_index) <- consume_positionals start_index st ;;
           Return (st', positionals_end_index,
                   (start_index <? positionals_end_index)%nat)
         else Return (st, start_index, false)) ;;
      if continue : bool then Return (st1, start1)
      else
        let '(st2, start2) :=
          if negb (existsb (Nat.eqb start1) (map fst option_string_indices)) then
            let strings :=
              firstn (next_option_string_index - start1) (skipn start1 arg_strings) in
            ({| namespace := namespace st1; seen_actions := seen_actions st1;
                positionals := positionals st1;
                extras := extras st1 ++ strings |},
             next_option_string_index)
          else (st1, start1) in
        consume_optional start2 st2
  end.

(** [while start_index <= max_option_string_index], with a bound on the
    number of turns. *)
Fixpoint loop (fuel : nat) (start_index : nat) (st : pstate)
  : result (pstate * nat) :=
  if (Z.of_nat start_index <=? max_option_string_index)%Z then
    match fuel with
    | 0 => Stuck
    | S fuel' =>
        ' (st', start') <- loop_body start_index st ;;
        loop fuel' start' st'
    end
  else Return (st, start_index).

End ParseKnownArgs.

(** ** [parse_args] *)

(** [_get_action_name(action)] *)
Definition _get_action_name (action : Action) : string :=
  match option_strings action with
  | [] => dest action
  | l => Str.join "/" l
  end.

(** The loop over [parser._actions] that ends [_parse_known_args]: the
    required actions that were not seen are collected, and a default that
    is a string and still in the namespace is converted. *)
Fixpoint check_required (actions : list Action) (seen : list Action)
  (required_actions : list string) (ns : Namespace)
  : result (list string * Namespace) :=
  match actions with
  | [] => Return (required_actions, ns)
  | action :: rest =>
      if existsb (Action_eqb action) seen then
        check_required rest seen required_actions ns
      else if required action then
        check_required rest seen (required_actions ++ [_get_action_name action]) ns
      else
        match default action, getattr ns (dest action) with
        | PyStr d, Some v =>
            if pyval_eqb (default action) v then
              value <- _get_value action d ;;
              check_required rest seen required_actions
                (setattr ns (dest action) value)
            else check_required rest seen required_actions ns
        | _, _ => check_required rest seen required_actions ns
        end
  end.

(** The body of [_parse_known_args] once the strings are classified: the
    main loop from [start_index], the positionals after the last option,
    the extras and the required actions. *)
Definition parse_from (arg_strings : list string)
  (option_string_indices : list (nat * option_tuple))
  (arg_strings_pattern : list pat) (fuel : nat) (start_index : nat) (st : pstate)
  : result (Namespace * list string) :=
  ' (st1, start1) <-
    loop arg_strings option_string_indices arg_strings_pattern fuel start_index st ;;
  ' (st2, stop_index) <-
    consume_positionals arg_strings arg_strings_pattern start1 st1 ;;
  let extras' := extras st2 ++ skipn stop_index arg_strings in
  ' (required_actions, ns') <-
    check_required _actions (seen_actions st2) [] (namespace st2) ;;
  match required_actions with
  | _ :: _ => error (Build_ArgumentError None (required_arguments required_actions))
  | [] => Return (ns', extras')
  end.

Definition initial_state (ns : Namespace) : pstate :=
  {| namespace := ns; seen_actions := [];
     positionals := _get_positional_actions; extras := [] |}.

(** [_parse_known_args(arg_strings, namespace)] with a bound on the turns
    of its main loop. *)
Definition _parse_known_args_fuel (fuel : nat) (arg_strings : list string)
  (ns : Namespace) : result (Namespace * list string) :=
  ' (option_string_indices, arg_strings_pattern) <- classify 0 arg_strings ;;
  parse_from arg_strings option_string_indices arg_strings_pattern fuel 0
    (initial_state ns).

(** The defaults that [parse_known_args] puts in a fresh namespace. *)
Fixpoint add_defaults (actions : list Action) (namespace : Namespace) : Namespace :=
  match actions with
  | [] => namespace
  | action :: rest =>
      add_defaults rest
        (if negb (String.eqb (dest action) SUPPRESS)
            && negb (hasattr namespace (dest action))
            && negb (pyval_eqb (default action) (PyStr SUPPRESS))
         then setattr namespace (dest action) (default action)
         else namespace)
  end.

(** The [except ArgumentError] clause of [parse_known_args]. *)
Definition exit_on_error {T : Type} (r : result T) : result T :=
  match r with
  | Raise err => error err
  | _ => r
  end.

(** [parse_known_args(args)] *)
Definition parse_known_args_fuel (fuel : nat) (args : list string)
  : result (Namespace * list string) :=
  let ns := add_defaults _actions [] in
  exit_on_error (_parse_known_args_fuel fuel args ns).

(** The end of [parse_args]: strings that no action took are an error. *)
Definition no_extras (r : result (Namespace * list string)) : result Namespace :=
  ' (args, argv) <- r ;;
  match argv with
  | _ :: _ => error (Build_ArgumentError None (unrecognized_arguments argv))
  | [] => Return args
  end.

(** [parse_args(args)] *)
Definition parse_args_fuel (fuel : nat) (args : list string) : result Namespace :=
  no_extras (parse_known_args_fuel fuel args).

(** Each turn of the main loop moves [start_index] forward, so one turn per
    string is enough ([loop_fuel]). *)
Definition parse_args (args : list string) : result Namespace :=
  parse_args_fuel (length args) args.

(** ** The script *)

(** How a run of the script ends. [NoBehaviour] is what the model answers
    where Python would stop on an exception other than [SystemExit];
    [main_outcome] shows no command line leads there. *)
Inductive outcome : Type :=
| Completed (args : Namespace) (stdout : list chunk)
| SystemExit (status : Z) (stdout stderr : list chunk)
| NoBehaviour.

Definition newline : string := String (ascii_of_nat 10) EmptyString.

(** [print] applied to a list of objects. *)
Definition print (objects : list pyval) : chunk :=
  Text (Str.join " " (map py_str objects) ++ newline).

(** The three lines of the summary. *)
Definition summary (quality threads : pyval) : list chunk :=
  [ print [PyStr "Verbose mode"];
    print [PyStr "Downloading"; quality];
    print [PyStr ("Downloading with " ++ py_str threads ++ " threads")] ].

(** The lines of the script after [parse_args]. *)
Definition script (parsed : result Namespace) : outcome :=
  match parsed with
  | Return args =>
      match getattr args "verbosity" with
      | Some verbosity =>
          if truthy verbosity then
            match getattr args "quality", getattr args "threads" with
            | Some quality, Some threads => Completed args (summary quality threads)
            | _, _ => NoBehaviour
            end
          else Completed args []
      | None => NoBehaviour
      end
  | Exit status stdout stderr => SystemExit status stdout stderr
  | Raise _ | Stuck => NoBehaviour
  end.

(** The script, [argv] being [sys.argv[1:]]. *)
Definition main (argv : list string) : outcome :=
  script (parse_args argv).

(** * Properties *)

(** ** Vocabulary *)

(** A token that cannot be taken for an option: it does not start with
    the prefix character. *)
Definition plain (s : string) : bool :=
  match s with
  | EmptyString => true
  | String c _ => negb (Ascii.eqb c "-")
  end.

(** [option_string_indices] when [n] strings are put in front. *)
Definition shift_indices (n : nat) (osi : list (nat * option_tuple))
  : list (nat * option_tuple) :=
  map (fun kt => (n + fst kt, snd kt)) osi.

(** The same step, [n] strings further. *)
Definition moved {T : Type} (n : nat) (r : result (T * nat)) : result (T * nat) :=
  ' (x, k) <- r ;; Return (x, n + k).

(** The state once [links] are stored by the positional. *)
Definition with_links (links : list string) (st : pstate) : pstate :=
  {| namespace := setattr (namespace st) "links" (PyList (map PyStr links));
     seen_actions := links_action :: seen_actions st;
     positionals := positionals st;
     extras := extras st |}.

(** What may follow the arguments taken by the positional: nothing, or an
    option. *)
Definition ends_group (p : list pat) : Prop :=
  match p with
  | [] => True
  | x :: _ => x = pat_O
  end.

(** The two ways the parser ends the process: the help on standard
    output with status 0, or the usage and one error line on the error
    stream with status 2. *)
Definition help_exit (status : Z) (stdout stderr : list chunk) : Prop :=
  status = 0%Z /\ stdout = [format_help] /\ stderr = [].

Definition usage_error (status : Z) (stdout stderr : list chunk) : Prop :=
  status = 2%Z /\ stdout = [] /\ exists e, stderr = [format_usage; error_line e].

Definition good_exit (status : Z) (stdout stderr : list chunk) : Prop :=
  help_exit status stdout stderr \/ usage_error status stdout stderr.

(** [ok_with E P r]: the step does not get stuck, an exit satisfies [E]
    and a returned value satisfies [P]. *)
Definition ok_with {T : Type} (E : Z -> list chunk -> list chunk -> Prop)
  (P : T -> Prop) (r : result T) : Prop :=
  match r with
  | Return x => P x
  | Raise _ => True
  | Exit status stdout stderr => E status stdout stderr
  | Stuck => False
  end.

(** The same, an exit being one of the two above. *)
Definition ok {T : Type} (P : T -> Prop) (r : result T) : Prop :=
  ok_with good_exit P r.

(** Every attribute of [ns] is an attribute of [ns']. *)
Definition extends (ns ns' : Namespace) : Prop :=
  forall k, hasattr ns k = true -> hasattr ns' k = true.

(** The keys of [option_string_indices] are positions of [arg_strings]. *)
Definition in_range (arg_strings : list string) (osi : list (nat * option_tuple))
  : Prop :=
  Forall (fun k => k < length arg_strings) (map fst osi).

(** One more than [max_option_string_index]: the turns the main loop can
    take from position 0. *)
Definition bound (osi : list (nat * option_tuple)) : nat :=
  Z.to_nat (max_option_string_index osi + 1).

(** The namespace [parse_known_args] starts from. *)
Definition default_namespace : Namespace := add_defaults _actions [].

(** The state of the parser once the links that open the command line are
    stored. *)
Definition links_state (links : list string) : pstate :=
  {| namespace := setattr default_namespace "links" (PyList (map PyStr links));
     seen_actions := [links_action];
     positionals := [];
     extras := [] |}.

(** What the script makes of the result of [_parse_known_args]. *)
Definition finish (r : result (Namespace * list string)) : outcome :=
  script (no_extras (exit_on_error r)).

(** The namespace of a successful parse. *)
Definition parsed (links : list string) (verbosity quality threads : pyval)
  : Namespace :=
  [("links", PyList (map PyStr links)); ("verbosity", verbosity);
   ("quality", quality); ("threads", threads)].

(** At least one link, and no link that could be taken for an option. *)
Definition links_ok (links : list string) : Prop :=
  links <> [] /\ Forall (fun s => plain s = true) links.

(** The values of [-t] that the spec names as refused, each with the
    message of the error. *)
Definition bad_threads : list (string * message) :=
  [("0", invalid_choice (PyInt 0) (choices threads_action));
   ("32", invalid_choice (PyInt 32) (choices threads_action));
   ("-1", invalid_choice (PyInt (-1)) (choices threads_action));
   ("abc", invalid_value "int" "abc")].

(** The end of the parse when the links close the command line: they are
    stored, then the required actions are checked. *)
Definition store_links_and_end (links : list string) (st : pstate)
  : result (Namespace * list string) :=
  ' (required_actions, ns') <-
    check_required _actions (links_action :: seen_actions st) []
      (setattr (namespace st) "links" (PyList (map PyStr links))) ;;
  match required_actions with
  | _ :: _ => error (Build_ArgumentError None (required_arguments required_actions))
  | [] => Return (ns', extras st)
  end.

(** The letters a positional takes once it has begun: ['A'] and ['-']. *)
Definition argument_letter (x : pat) : Prop := x = pat_A \/ x = pat_dash.

(** A string that does not start with ["--="]: the only strings that
    abbreviate more than one option of this parser start so. *)
Definition unambiguous (s : string) : bool := negb (String.prefix "--=" s).

(** An option as it is typed: the string of the option and, when the
    value is typed as a string of its own, that string. [("-q", Some q)]
    is [-q q]; [("--quality=720p", None)] carries its value. *)
Definition typed_option : Type := string * option string.

(** The strings of the command line that a typed option takes up. *)
Definition typed_strings (o : typed_option) : list string :=
  fst o :: match snd o with Some value => [value] | None => [] end.

(** A string that [_parse_known_args] takes for an argument. *)
Definition is_argument (s : string) : bool :=
  negb (String.eqb s "--")
  && match _parse_optional s with Return None => true | _ => false end.

(** The options that take exactly one string: [-v], [-q], [-t]. *)
Definition takes_one (a : Action) : bool :=
  match nargs a, option_strings a with
  | nargs_None, _ :: _ => true
  | _, _ => false
  end.

(** What the parser is to do for a typed option: the action, its
    strings and the option string; [None] when the typing is not of one of
    the two shapes above. *)
Definition typed_action (o : typed_option) : option action_tuple :=
  match _parse_optional (fst o) with
  | Return (Some (Some a, os, e)) =>
      if takes_one a then
        match e, snd o with
        | None, Some value => if is_argument value then Some (a, [value], os) else None
        | Some e, None => Some (a, [e], os)
        | _, _ => None
        end
      else None
  | _ => None
  end.

(** The same for options typed one after the other, when each is of one
    of the two shapes. *)
Fixpoint typed_actions (l : list typed_option) : option (list action_tuple) :=
  match l with
  | [] => Some []
  | o :: l' =>
      match typed_action o, typed_actions l' with
      | Some t, Some ts => Some (t :: ts)
      | _, _ => None
      end
  end.

(** [option_string_indices] and [arg_strings_pattern] of typed options
    followed by strings whose indices and pattern are [osi] and [p]. *)
Fixpoint typed_indices (l : list typed_option) (osi : list (nat * option_tuple))
  : list (nat * option_tuple) :=
  match l with
  | [] => osi
  | o :: l' =>
      match _parse_optional (fst o) with
      | Return (Some t) =>
          (0, t) :: shift_indices (length (typed_strings o)) (typed_indices l' osi)
      | _ => []
      end
  end.

(** An ['O'] for each option, followed by an ['A'] when its value is a
    string of its own. *)
Fixpoint typed_pattern (l : list typed_option) (p : list pat) : list pat :=
  match l with
  | [] => p
  | o :: l' =>
      pat_O :: match snd o with Some _ => [pat_A] | None => [] end
      ++ typed_pattern l' p
  end.

(** The end of the parse when nothing is left but [more] strings no
    action takes. *)
Definition end_of_parse (more : list string) (st : pstate)
  : result (Namespace * list string) :=
  ' (required_actions, ns') <-
    check_required _actions (seen_actions st) [] (namespace st) ;;
  match required_actions with
  | _ :: _ => error (Build_ArgumentError None (required_arguments required_actions))
  | [] => Return (ns', extras st ++ more)
  end.

(** The attributes of a namespace, in the order of [vars(namespace)]. *)
Definition attributes (ns : Namespace) : list string := map fst ns.

(** The attributes of the namespace that [parse_args] returns. *)
Definition parsed_attributes : list string :=
  ["links"; "verbosity"; "quality"; "threads"].

(** What the options store: each value is converted and checked, then
    set, from left to right. *)
Fixpoint store_all (acts : list action_tuple) (ns : Namespace) : result Namespace :=
  match acts with
  | [] => Return ns
  | (a, args, _) :: rest =>
      v <- _get_values a args ;;
      store_all rest (setattr ns (dest a) v)
  end.

(** The action of an option that was typed. *)
Definition action_of (t : action_tuple) : Action := fst (fst t).

(** A string that looks like an option and is none: no option string of
    the parser, and no abbreviation of one. *)
Definition unknown_option (s : string) : bool :=
  match _parse_optional s with
  | Return (Some (None, _, _)) => true
  | _ => false
  end.




(** ** Lemmas on the parser *)

(** *** Links and the strings that follow them *)

Lemma bind_eta_pair {T U : Type} (m : result (T * U)) :
  (' (a, b) <- m ;; Return (a, b)) = m.
Proof. destruct m as [[a b]| | |]; reflexivity. Qed.

Lemma bind_assoc {T U V : Type} (m : result T) (f : T -> result U) (g : U -> result V) :
  bind (bind m f) g = bind m (fun x => bind (f x) g).
Proof. destruct m; reflexivity. Qed.

Lemma plain_not_prefix c s : plain (String c s) = true -> in_prefix_chars c = false.
Proof.
  intros H. apply negb_true_iff in H.
  change (in_prefix_chars c) with (Ascii.eqb "-" c || false).
  rewrite Ascii.eqb_sym, H. reflexivity.
Qed.

Lemma plain_parse_optional s : plain s = true -> _parse_optional s = Return None.
Proof.
  destruct s as [|c s]; [reflexivity|]. intros H.
  unfold _parse_optional. rewrite (plain_not_prefix _ _ H). reflexivity.
Qed.

Lemma plain_not_double_dash s : plain s = true -> String.eqb s "--" = false.
Proof.
  destruct s as [|c s]; [reflexivity|]. intros H. apply negb_true_iff in H.
  change (String.eqb (String c s) "--") with
    (if Ascii.eqb c "-" then String.eqb s "-" else false).
  rewrite H. reflexivity.
Qed.

Lemma classify_plain_app links : forall i rest,
  Forall (fun s => plain s = true) links ->
  classify i (links ++ rest) =
  ' (osi, p) <- classify (length links + i) rest ;;
  Return (osi, repeat pat_A (length links) ++ p).
Proof.
  induction links as [|l links IH]; intros i rest H.
  - cbn. symmetry. apply bind_eta_pair.
  - inversion H as [|? ? Hl Hr]; subst. cbn [app classify length].
    rewrite (plain_not_double_dash _ Hl), (plain_parse_optional _ Hl).
    cbn [bind]. rewrite (IH (S i) rest Hr).
    replace (length links + S i) with (S (length links) + i) by lia.
    destruct (classify (S (length links) + i) rest) as [[osi p]| | |]; reflexivity.
Qed.

Lemma classify_shift l : forall n i,
  classify (n + i) l = ' (osi, p) <- classify i l ;; Return (shift_indices n osi, p).
Proof.
  induction l as [|a l IH]; intros n i; [reflexivity|].
  cbn [classify]. destruct (String.eqb a "--"); [reflexivity|].
  destruct (_parse_optional a) as [o| | |]; cbn [bind]; try reflexivity.
  replace (S (n + i)) with (n + S i) by lia. rewrite IH.
  destruct (classify (S i) l) as [[osi p]| | |]; cbn [bind]; try reflexivity.
  destruct o; reflexivity.
Qed.

Lemma re_star_arguments k p' g : forall m len,
  ends_group p' ->
  k p' (len + m) = Some g ->
  re_star [pat_A; pat_dash] k (repeat pat_A m ++ p') len = Some g.
Proof.
  induction m as [|m IH]; intros len Hp Hk.
  - rewrite Nat.add_0_r in Hk. cbn [repeat app].
    destruct p' as [|x p']; [exact Hk|]. cbn in Hp; subst x. exact Hk.
  - cbn [repeat app re_star existsb pat_eqb orb].
    rewrite (IH (S len) Hp); [reflexivity|].
    replace (S len + m) with (len + S m) by lia. exact Hk.
Qed.

Lemma match_partial_links n p' :
  ends_group p' ->
  _match_arguments_partial [links_action] (repeat pat_A (S n) ++ p') = [S n].
Proof.
  intros Hp. unfold _match_arguments_partial. cbn.
  rewrite (re_star_arguments _ p' [S n] n 1 Hp); reflexivity.
Qed.

Lemma remove_first_plain links :
  Forall (fun s => plain s = true) links -> remove_first "--" links = links.
Proof.
  induction 1 as [|l links Hl _ IH]; [reflexivity|].
  cbn [remove_first]. rewrite (plain_not_double_dash _ Hl), IH. reflexivity.
Qed.

Lemma get_each_links l : get_each links_action l = Return (map PyStr l).
Proof. induction l as [|a l IH]; [reflexivity|]. cbn. rewrite IH. reflexivity. Qed.

Lemma check_each_links l : check_each links_action l = Return tt.
Proof. induction l as [|a l IH]; [reflexivity|]. cbn. exact IH. Qed.

Lemma get_values_links links :
  Forall (fun s => plain s = true) links ->
  _get_values links_action links = Return (PyList (map PyStr links)).
Proof.
  intros H. unfold _get_values. rewrite (remove_first_plain _ H).
  cbn [nargs]. rewrite get_each_links. cbn [bind]. rewrite check_each_links.
  reflexivity.
Qed.

Lemma take_action_links links st :
  Forall (fun s => plain s = true) links ->
  take_action links_action links st = Return (with_links links st).
Proof.
  intros H. unfold take_action. rewrite (get_values_links _ H). reflexivity.
Qed.

Lemma consume_positionals_links arg_strings pattern start st n p' links :
  positionals st = [links_action] ->
  skipn start pattern = repeat pat_A (S n) ++ p' ->
  ends_group p' ->
  firstn (S n) (skipn start arg_strings) = links ->
  Forall (fun s => plain s = true) links ->
  consume_positionals arg_strings pattern start st =
  Return ({| namespace := namespace (with_links links st);
             seen_actions := seen_actions (with_links links st);
             positionals := [];
             extras := extras st |}, start + S n).
Proof.
  intros Hpos Hpat Hp Hargs Hplain. unfold consume_positionals.
  rewrite Hpos, Hpat, (match_partial_links n p' Hp).
  cbn [combine take_positionals]. rewrite Hargs, (take_action_links _ _ Hplain).
  cbn [bind with_links positionals length skipn]. rewrite Hpos. reflexivity.
Qed.


(** *** Strings put in front move the positions *)

Lemma keys_shift n osi : map fst (shift_indices n osi) = map (Nat.add n) (map fst osi).
Proof.
  unfold shift_indices.
  induction osi as [|kt osi IH]; cbn; [|rewrite IH]; reflexivity.
Qed.

Lemma osi_get_shift n i osi : osi_get (n + i) (shift_indices n osi) = osi_get i osi.
Proof.
  unfold shift_indices.
  induction osi as [|[k t] osi IH]; [reflexivity|]. cbn.
  replace (n + k =? n + i)%nat with (k =? i)%nat.
  - rewrite IH. reflexivity.
  - destruct (Nat.eqb_spec k i), (Nat.eqb_spec (n + k) (n + i)); lia || reflexivity.
Qed.

Lemma fold_max_shift n ks : forall k,
  fold_left Nat.max (map (Nat.add n) ks) (n + k) = n + fold_left Nat.max ks k.
Proof.
  induction ks as [|a ks IH]; intros k; [reflexivity|]. cbn.
  rewrite Nat.add_max_distr_l. apply IH.
Qed.

Lemma fold_min_shift n ks : forall k,
  fold_left Nat.min (map (Nat.add n) ks) (n + k) = n + fold_left Nat.min ks k.
Proof.
  induction ks as [|a ks IH]; intros k; [reflexivity|]. cbn.
  rewrite Nat.add_min_distr_l. apply IH.
Qed.

Lemma list_min_shift n ks :
  list_min (map (Nat.add n) ks) = option_map (Nat.add n) (list_min ks).
Proof.
  destruct ks as [|k ks]; [reflexivity|]. cbn. rewrite fold_min_shift. reflexivity.
Qed.

Lemma filter_ge_shift n s ks :
  filter (fun index => (n + s <=? index)%nat) (map (Nat.add n) ks) =
  map (Nat.add n) (filter (fun index => (s <=? index)%nat) ks).
Proof.
  induction ks as [|k ks IH]; [reflexivity|]. cbn.
  replace (n + s <=? n + k)%nat with (s <=? k)%nat.
  - destruct (s <=? k)%nat; cbn; rewrite IH; reflexivity.
  - destruct (Nat.leb_spec s k), (Nat.leb_spec (n + s) (n + k)); lia || reflexivity.
Qed.

Lemma existsb_eqb_shift n i ks :
  existsb (Nat.eqb (n + i)) (map (Nat.add n) ks) = existsb (Nat.eqb i) ks.
Proof.
  induction ks as [|k ks IH]; [reflexivity|]. cbn. rewrite IH. f_equal.
  destruct (Nat.eqb_spec i k), (Nat.eqb_spec (n + i) (n + k)); lia || reflexivity.
Qed.

Lemma max_shift n i osi :
  (Z.of_nat (n + i) <=? max_option_string_index (shift_indices n osi))%Z =
  (Z.of_nat i <=? max_option_string_index osi)%Z.
Proof.
  unfold max_option_string_index. rewrite keys_shift.
  destruct (map fst osi) as [|k ks]; cbn [map].
  - destruct (Z.leb_spec (Z.of_nat (n + i)) (-1)), (Z.leb_spec (Z.of_nat i) (-1));
      lia || reflexivity.
  - rewrite fold_max_shift.
    destruct (Z.leb_spec (Z.of_nat (n + i)) (Z.of_nat (n + fold_left Nat.max ks k))),
      (Z.leb_spec (Z.of_nat i) (Z.of_nat (fold_left Nat.max ks k))); lia || reflexivity.
Qed.

Section Shift.

Variables (pre rest : list string) (ppre p : list pat).
Variable osi : list (nat * option_tuple).
Variable n : nat.
Hypothesis Hpre : length pre = n.
Hypothesis Hppre : length ppre = n.

Lemma skipn_shift {A : Type} (a l : list A) i :
  length a = n -> skipn (n + i) (a ++ l) = skipn i l.
Proof.
  intros H. rewrite skipn_app, skipn_all2 by lia.
  replace (n + i - length a) with i by lia. reflexivity.
Qed.

Lemma nth_error_shift i : nth_error (pre ++ rest) (n + i) = nth_error rest i.
Proof.
  rewrite nth_error_app2 by lia. f_equal. lia.
Qed.

Lemma following_shift i a os ats :
  following (pre ++ rest) (ppre ++ p) (n + i) a os ats =
  moved n (following rest p i a os ats).
Proof.
  unfold following. replace (n + i + 1) with (n + (i + 1)) by lia.
  rewrite !skipn_shift by assumption.
  destruct (_match_argument a (skipn (i + 1) p)) as [c| | |]; cbn; try reflexivity.
  do 2 f_equal. lia.
Qed.

Lemma with_explicit_shift i e : forall a os ats,
  with_explicit (pre ++ rest) (ppre ++ p) (n + i) a os e ats =
  moved n (with_explicit rest p i a os e ats).
Proof.
  induction e as [|c e IH]; intros a os ats; cbn [with_explicit].
  - destruct (_match_argument a [pat_A]) as [k| | |]; cbn [bind]; try reflexivity.
    destruct (k =? 1)%nat; cbn; [do 2 f_equal; lia | reflexivity].
  - destruct (_match_argument a [pat_A]) as [k| | |]; cbn [bind]; try reflexivity.
    destruct ((k =? 0)%nat && single_dash os).
    + destruct os as [|ch os']; [reflexivity|].
      destruct (dict_get _ _option_string_actions) as [a'|]; [|reflexivity].
      destruct e; [apply following_shift | apply IH].
    + destruct (k =? 1)%nat; cbn; [do 2 f_equal; lia | reflexivity].
Qed.

Lemma consume_optional_shift i st :
  consume_optional (pre ++ rest) (shift_indices n osi) (ppre ++ p) (n + i) st =
  moved n (consume_optional rest osi p i st).
Proof.
  unfold consume_optional. rewrite osi_get_shift, nth_error_shift.
  destruct (osi_get i osi) as [[[[a|] os] e]|]; try reflexivity.
  - assert (H : (match e with
                 | Some e0 => with_explicit (pre ++ rest) (ppre ++ p) (n + i) a os e0 []
                 | None => following (pre ++ rest) (ppre ++ p) (n + i) a os []
                 end) =
                moved n (match e with
                         | Some e0 => with_explicit rest p i a os e0 []
                         | None => following rest p i a os []
                         end)).
    { destruct e; [apply with_explicit_shift | apply following_shift]. }
    rewrite H. clear H.
    destruct (match e with
              | Some e0 => with_explicit rest p i a os e0 []
              | None => following rest p i a os []
              end) as [[ats stop]| | |]; cbn; try reflexivity.
    destruct (take_actions ats st); reflexivity.
  - destruct (nth_error rest i); cbn; [do 2 f_equal; lia | reflexivity].
Qed.

Lemma take_positionals_shift l : forall i st,
  take_positionals (pre ++ rest) l (n + i) st =
  moved n (take_positionals rest l i st).
Proof.
  induction l as [|[a c] l IH]; intros i st; cbn [take_positionals]; [reflexivity|].
  rewrite skipn_shift by assumption.
  destruct (take_action a (firstn c (skipn i rest)) st) as [st'| | |]; cbn [bind];
    try reflexivity.
  replace (n + i + c) with (n + (i + c)) by lia. apply IH.
Qed.

Lemma consume_positionals_shift i st :
  consume_positionals (pre ++ rest) (ppre ++ p) (n + i) st =
  moved n (consume_positionals rest p i st).
Proof.
  unfold consume_positionals. rewrite skipn_shift by assumption.
  rewrite take_positionals_shift.
  destruct (take_positionals rest _ i st) as [[st' stop]| | |]; reflexivity.
Qed.

Lemma loop_body_shift i st :
  loop_body (pre ++ rest) (shift_indices n osi) (ppre ++ p) (n + i) st =
  moved n (loop_body rest osi p i st).
Proof.
  unfold loop_body. rewrite keys_shift, filter_ge_shift, list_min_shift.
  destruct (list_min (filter _ (map fst osi))) as [next|]; cbn [option_map];
    [|reflexivity].
  replace (n + i =? n + next)%nat with (i =? next)%nat
    by (destruct (Nat.eqb_spec i next), (Nat.eqb_spec (n + i) (n + next));
        lia || reflexivity).
  destruct (i =? next)%nat eqn:E; cbn [negb bind].
  - rewrite existsb_eqb_shift.
    destruct (existsb (Nat.eqb i) (map fst osi)); cbn [negb].
    + apply consume_optional_shift.
    + rewrite skipn_shift by assumption.
      replace (n + next - (n + i)) with (next - i) by lia.
      apply consume_optional_shift.
  - rewrite consume_positionals_shift.
    destruct (consume_positionals rest p i st) as [[st' e]| | |]; cbn [moved bind];
      try reflexivity.
    replace (n + i <? n + e)%nat with (i <? e)%nat
      by (destruct (Nat.ltb_spec i e), (Nat.ltb_spec (n + i) (n + e));
          lia || reflexivity).
    destruct (i <? e)%nat; [reflexivity|].
    rewrite existsb_eqb_shift.
    destruct (existsb (Nat.eqb e) (map fst osi)); cbn [negb].
    + apply consume_optional_shift.
    + rewrite skipn_shift by assumption.
      replace (n + next - (n + e)) with (next - e) by lia.
      apply consume_optional_shift.
Qed.

Lemma loop_shift fuel : forall i st,
  loop (pre ++ rest) (shift_indices n osi) (ppre ++ p) fuel (n + i) st =
  moved n (loop rest osi p fuel i st).
Proof.
  induction fuel as [|fuel IH]; intros i st; cbn [loop]; rewrite max_shift.
  - destruct (Z.of_nat i <=? _)%Z; reflexivity.
  - destruct (Z.of_nat i <=? _)%Z; [|reflexivity].
    rewrite loop_body_shift.
    destruct (loop_body rest osi p i st) as [[st' j]| | |]; cbn [moved bind];
      try reflexivity.
    apply IH.
Qed.

Lemma parse_from_shift fuel i st :
  parse_from (pre ++ rest) (shift_indices n osi) (ppre ++ p) fuel (n + i) st =
  parse_from rest osi p fuel i st.
Proof.
  unfold parse_from. rewrite loop_shift.
  destruct (loop rest osi p fuel i st) as [[st1 j]| | |]; cbn [moved bind];
    try reflexivity.
  rewrite consume_positionals_shift.
  destruct (consume_positionals rest p j st1) as [[st2 k]| | |]; cbn [moved bind];
    try reflexivity.
  rewrite skipn_shift by assumption. reflexivity.
Qed.

End Shift.


(** *** No step gets stuck, every exit is a help or a usage error *)

Lemma ok_bind {T U : Type} E (P : T -> Prop) (Q : U -> Prop) m k :
  ok_with E P m -> (forall x, P x -> ok_with E Q (k x)) -> ok_with E Q (bind m k).
Proof. destruct m; cbn; auto. Qed.

Lemma ok_weaken {T : Type} E (P Q : T -> Prop) r :
  ok_with E P r -> (forall x, P x -> Q x) -> ok_with E Q r.
Proof. destruct r; cbn; auto. Qed.

Lemma ok_usage {T : Type} (P : T -> Prop) r : ok_with usage_error P r -> ok P r.
Proof. destruct r; cbn; auto. intros H. right. exact H. Qed.

Lemma usage_error_error {T : Type} (P : T -> Prop) e :
  ok_with usage_error P (@error T e).
Proof. repeat split. exists e. reflexivity. Qed.

Lemma ok_error {T : Type} (P : T -> Prop) e : ok P (@error T e).
Proof. apply ok_usage, usage_error_error. Qed.

Lemma extends_refl ns : extends ns ns.
Proof. intros k H. exact H. Qed.

Lemma extends_trans a b c : extends a b -> extends b c -> extends a c.
Proof. intros H1 H2 k H. auto. Qed.

Lemma extends_setattr ns name v : extends ns (setattr ns name v).
Proof.
  intros k. unfold hasattr, getattr.
  induction ns as [|[k' v'] ns IH]; cbn; [discriminate|].
  destruct (String.eqb k' name) eqn:E; cbn.
  - destruct (String.eqb k' k); auto.
  - destruct (String.eqb k' k); auto.
Qed.

Lemma ok_get_option_tuples c0 c1 tail :
  ok_with usage_error (fun _ => True) (_get_option_tuples c0 c1 tail).
Proof.
  unfold _get_option_tuples.
  destruct (in_prefix_chars c0 && in_prefix_chars c1).
  - destruct (Str.contains "=" _); [destruct (Str.split1 _ _)|]; exact I.
  - destruct (in_prefix_chars c0 && negb (in_prefix_chars c1)); [exact I|].
    apply usage_error_error.
Qed.

Lemma ok_parse_optional s : ok_with usage_error (fun _ => True) (_parse_optional s).
Proof.
  unfold _parse_optional. destruct s as [|c0 rest]; [exact I|].
  destruct (negb (in_prefix_chars c0)); [exact I|].
  destruct (dict_get _ _); [exact I|].
  destruct rest as [|c1 tail]; [exact I|].
  match goal with |- ok_with _ _ (match ?x with _ => _ end) => destruct x end;
    [exact I|].
  eapply ok_bind; [apply ok_get_option_tuples|]. intros l _.
  destruct l as [|t [|t' l]]; [| exact I | apply usage_error_error].
  destruct (_ && _); [exact I|]. destruct (Str.contains _ _); exact I.
Qed.

Lemma ok_classify l : forall i,
  ok_with usage_error
     (fun r => Forall (fun k => i <= k < i + length l) (map fst (fst r))
               /\ length (snd r) = length l)
     (classify i l).
Proof.
  induction l as [|a l IH]; intros i; cbn [classify].
  - cbn. split; [constructor | reflexivity].
  - destruct (String.eqb a "--").
    + cbn. split; [constructor|]. rewrite length_map. reflexivity.
    + eapply ok_bind; [apply ok_parse_optional|]. intros o _.
      eapply ok_bind; [apply IH|]. intros [osi p] [Hk Hl]. cbn in Hk, Hl.
      assert (Hk' : Forall (fun k => i <= k < i + length (a :: l)) (map fst osi)).
      { eapply Forall_impl; [|exact Hk]. cbn. intros; lia. }
      destruct o; cbn; split; try (cbn; congruence); auto.
      constructor; [cbn; lia | exact Hk'].
Qed.

Lemma ok_match_argument a p : ok (fun _ => True) (_match_argument a p).
Proof. unfold _match_argument. destruct (re_match _ _ _); exact I. Qed.

Lemma ok_get_value a s : ok (fun _ => True) (_get_value a s).
Proof. unfold _get_value. destruct (type a); [|destruct (py_int s)]; exact I. Qed.

Lemma ok_check_value a v : ok (fun _ => True) (_check_value a v).
Proof. unfold _check_value. destruct (in_choices _ _); exact I. Qed.

Lemma ok_get_each a l : ok (fun _ => True) (get_each a l).
Proof.
  induction l as [|x l IH]; [exact I|]. cbn [get_each].
  eapply ok_bind; [apply ok_get_value|]. intros v _.
  eapply ok_bind; [apply IH|]. intros; exact I.
Qed.

Lemma ok_check_each a l : ok (fun _ => True) (check_each a l).
Proof.
  induction l as [|x l IH]; [exact I|]. cbn [check_each].
  eapply ok_bind; [apply ok_check_value|]. intros; apply IH.
Qed.

Lemma ok_get_values a l : ok (fun _ => True) (_get_values a l).
Proof.
  unfold _get_values.
  assert (H : ok (fun _ : pyval => True)
                (value <- get_each a (remove_first "--" l) ;;
                 check_each a value ;;; Return (PyList value))).
  { eapply ok_bind; [apply ok_get_each|]. intros v _.
    eapply ok_bind; [apply ok_check_each|]. intros; exact I. }
  destruct (nargs a); try exact H.
  destruct (remove_first "--" l) as [|x [|y l']]; try exact H.
  eapply ok_bind; [apply ok_get_value|]. intros v _.
  eapply ok_bind; [apply ok_check_value|]. intros; exact I.
Qed.

Lemma ok_take_action a l st :
  ok (fun st' => extends (namespace st) (namespace st')) (take_action a l st).
Proof.
  unfold take_action. eapply ok_bind; [apply ok_get_values|]. intros v _.
  unfold call. destruct (action_class a); cbn.
  - apply extends_setattr.
  - left. repeat split.
Qed.

Lemma ok_take_actions ats : forall st,
  ok (fun st' => extends (namespace st) (namespace st')) (take_actions ats st).
Proof.
  induction ats as [|[[a l] os] ats IH]; intros st; cbn [take_actions].
  - apply extends_refl.
  - eapply ok_bind; [apply ok_take_action|]. intros st' H.
    eapply ok_weaken; [apply IH|]. intros st'' H'. cbn beta in *. eapply extends_trans; eauto.
Qed.

Section Invariants.

Variable arg_strings : list string.
Variable osi : list (nat * option_tuple).
Variable p : list pat.

Lemma ok_following i a os ats :
  ok (fun r => i < snd r) (following arg_strings p i a os ats).
Proof.
  unfold following. eapply ok_bind; [apply ok_match_argument|].
  intros c _. cbn. lia.
Qed.

Lemma ok_with_explicit i e : forall a os ats,
  ok (fun r => i < snd r) (with_explicit arg_strings p i a os e ats).
Proof.
  induction e as [|c e IH]; intros a os ats; cbn [with_explicit];
    (eapply ok_bind; [apply ok_match_argument|]); intros k _.
  - destruct (k =? 1)%nat; cbn; [lia | exact I].
  - destruct os as [|ch os'].
    + rewrite andb_false_r. destruct (k =? 1)%nat; cbn; [lia | exact I].
    + destruct ((k =? 0)%nat && single_dash (String ch os')).
      * destruct (dict_get _ _) as [a'|]; [|exact I].
        destruct e; [apply ok_following | apply IH].
      * destruct (k =? 1)%nat; cbn; [lia | exact I].
Qed.

Lemma osi_get_in i : In i (map fst osi) -> osi_get i osi <> None.
Proof.
  induction osi as [|[k t] l IH]; cbn; [tauto|].
  intros [H|H]; destruct (Nat.eqb_spec k i); try discriminate; auto; lia.
Qed.

Lemma ok_consume_optional i st :
  in_range arg_strings osi -> In i (map fst osi) ->
  ok (fun r => extends (namespace st) (namespace (fst r)) /\ i < snd r)
     (consume_optional arg_strings osi p i st).
Proof.
  intros Hr Hi. unfold consume_optional.
  pose proof (osi_get_in i Hi) as Hg.
  destruct (osi_get i osi) as [[[[a|] os] e]|]; [| |congruence].
  - eapply ok_bind with (P := fun r => i < snd r).
    + destruct e; [apply ok_with_explicit | apply ok_following].
    + intros [ats stop] Hs. cbn in Hs.
      eapply ok_bind; [apply ok_take_actions|]. intros st' H. cbn. auto.
  - assert (Hlt : i < length arg_strings).
    { unfold in_range in Hr. rewrite Forall_forall in Hr. auto. }
    apply nth_error_Some in Hlt.
    destruct (nth_error arg_strings i); [|congruence].
    cbn. split; [apply extends_refl | lia].
Qed.

Lemma ok_take_positionals l : forall i st,
  ok (fun r => extends (namespace st) (namespace (fst r)) /\ i <= snd r)
     (take_positionals arg_strings l i st).
Proof.
  induction l as [|[a c] l IH]; intros i st; cbn [take_positionals].
  - cbn. split; [apply extends_refl | lia].
  - eapply ok_bind; [apply ok_take_action|]. intros st' H.
    eapply ok_weaken; [apply IH|]. intros [st'' j] [H1 H2]. cbn in *.
    split; [cbn beta in *; eapply extends_trans; eauto | lia].
Qed.

Lemma ok_consume_positionals i st :
  ok (fun r => extends (namespace st) (namespace (fst r)) /\ i <= snd r)
     (consume_positionals arg_strings p i st).
Proof.
  unfold consume_positionals.
  eapply ok_bind; [apply ok_take_positionals|]. intros [st' j] [H1 H2].
  cbn in *. auto.
Qed.

Lemma fold_max_in ks : forall k, In (fold_left Nat.max ks k) (k :: ks).
Proof.
  induction ks as [|a ks IH]; intros k; cbn; [auto|].
  destruct (IH (Nat.max k a)) as [H|H]; [|auto].
  destruct (Nat.max_spec k a) as [[_ E]|[_ E]]; rewrite E in *; auto.
Qed.

Lemma fold_min_in ks : forall k, In (fold_left Nat.min ks k) (k :: ks).
Proof.
  induction ks as [|a ks IH]; intros k; cbn; [auto|].
  destruct (IH (Nat.min k a)) as [H|H]; [|auto].
  destruct (Nat.min_spec k a) as [[_ E]|[_ E]]; rewrite E in *; auto.
Qed.

Lemma next_option_exists i :
  (Z.of_nat i <=? max_option_string_index osi)%Z = true ->
  exists next,
    list_min (filter (fun index => (i <=? index)%nat) (map fst osi)) = Some next
    /\ In next (map fst osi) /\ i <= next.
Proof.
  unfold max_option_string_index. intros H.
  destruct (map fst osi) as [|k ks] eqn:E; [apply Z.leb_le in H; lia|].
  apply Z.leb_le in H.
  assert (Hin : In (fold_left Nat.max ks k)
                  (filter (fun index => (i <=? index)%nat) (k :: ks))).
  { apply filter_In. split; [apply fold_max_in | apply Nat.leb_le; lia]. }
  destruct (filter _ (k :: ks)) as [|m ms] eqn:F; [destruct Hin|].
  exists (fold_left Nat.min ms m). split; [reflexivity|].
  pose proof (fold_min_in ms m) as Hm. rewrite <- F in Hm.
  apply filter_In in Hm. destruct Hm as [H1 H2]. apply Nat.leb_le in H2. auto.
Qed.

Lemma existsb_eqb_in i ks : In i ks -> existsb (Nat.eqb i) ks = true.
Proof.
  intros H. apply existsb_exists. exists i. split; [exact H | apply Nat.eqb_refl].
Qed.

Lemma existsb_eqb_true i ks : existsb (Nat.eqb i) ks = true -> In i ks.
Proof.
  intros H. apply existsb_exists in H. destruct H as [x [H1 H2]].
  apply Nat.eqb_eq in H2. subst. exact H1.
Qed.

Lemma ok_loop_body i st :
  in_range arg_strings osi ->
  (Z.of_nat i <=? max_option_string_index osi)%Z = true ->
  ok (fun r => extends (namespace st) (namespace (fst r)) /\ i < snd r)
     (loop_body arg_strings osi p i st).
Proof.
  intros Hr Hm. unfold loop_body.
  destruct (next_option_exists i Hm) as [next [E [Hin Hle]]]. rewrite E.
  destruct (Nat.eqb_spec i next) as [->|Hne]; cbn [negb bind].
  - rewrite (existsb_eqb_in _ _ Hin). cbn [negb].
    apply ok_consume_optional; assumption.
  - pose proof (ok_consume_positionals i st) as Hc.
    destruct (consume_positionals arg_strings p i st) as [[st' e]| | |];
      cbn [bind]; try exact Hc.
    cbn in Hc. destruct Hc as [H1 H2].
    destruct (Nat.ltb_spec i e) as [Hlt|Hge]; [cbn; auto|].
    assert (e = i) by lia. subst e.
    destruct (existsb (Nat.eqb i) (map fst osi)) eqn:X; cbn [negb].
    + eapply ok_weaken; [apply ok_consume_optional; auto using existsb_eqb_true|].
      intros [st'' j] [H3 H4]. cbn in *. split; [cbn beta in *; eapply extends_trans; eauto|lia].
    + eapply ok_weaken; [apply ok_consume_optional; auto|].
      intros [st'' j] [H3 H4]. cbn in *. split; [cbn beta in *; eapply extends_trans; eauto|lia].
Qed.

Lemma ok_loop fuel : forall i st,
  in_range arg_strings osi ->
  bound osi - i <= fuel ->
  ok (fun r => extends (namespace st) (namespace (fst r)))
     (loop arg_strings osi p fuel i st).
Proof.
  unfold bound.
  induction fuel as [|fuel IH]; intros i st Hr Hf; cbn [loop];
    destruct (Z.of_nat i <=? max_option_string_index osi)%Z eqn:C;
    try (cbn; apply extends_refl).
  - apply Z.leb_le in C. lia.
  - eapply ok_bind; [apply ok_loop_body; assumption|]. intros [st' j] [H1 H2].
    cbn in H1, H2. eapply ok_weaken; [apply IH; [assumption | lia]|].
    intros [st'' j'] H3. cbn in *. cbn beta in *; eapply extends_trans; eauto.
Qed.

(** The result of the main loop does not depend on the bound, once the
    bound is large enough. *)
Lemma loop_fuel f1 : forall f2 i st,
  in_range arg_strings osi ->
  bound osi - i <= f1 -> bound osi - i <= f2 ->
  loop arg_strings osi p f1 i st = loop arg_strings osi p f2 i st.
Proof.
  unfold bound.
  induction f1 as [|f1 IH]; intros f2 i st Hr H1 H2; destruct f2 as [|f2];
    cbn [loop]; destruct (Z.of_nat i <=? max_option_string_index osi)%Z eqn:C;
    try reflexivity; try (apply Z.leb_le in C; lia).
  pose proof (ok_loop_body i st Hr C) as Hb.
  destruct (loop_body arg_strings osi p i st) as [[st' j]| | |]; cbn [bind];
    try reflexivity.
  cbn in Hb. apply IH; [assumption | lia | lia].
Qed.

End Invariants.

Lemma bound_in_range arg_strings osi :
  in_range arg_strings osi -> bound osi <= length arg_strings.
Proof.
  unfold in_range, bound, max_option_string_index. intros H.
  destruct (map fst osi) as [|k ks]; [cbn; lia|].
  rewrite Forall_forall in H. pose proof (H _ (fold_max_in ks k)). lia.
Qed.

Lemma ok_check_required actions seen : forall req ns,
  ok (fun r => extends ns (snd r)) (check_required actions seen req ns).
Proof.
  induction actions as [|a actions IH]; intros req ns; cbn [check_required].
  - apply extends_refl.
  - destruct (existsb _ seen); [apply IH|].
    destruct (required a); [apply IH|].
    destruct (default a); try apply IH.
    destruct (getattr ns (dest a)); [|apply IH].
    destruct (pyval_eqb _ _); [|apply IH].
    eapply ok_bind; [apply ok_get_value|]. intros v _.
    eapply ok_weaken; [apply IH|]. intros [r ns'] H. cbn in *.
    eapply extends_trans; [apply extends_setattr | exact H].
Qed.

Lemma ok_parse_from arg_strings osi p fuel i st :
  in_range arg_strings osi ->
  bound osi - i <= fuel ->
  ok (fun r => extends (namespace st) (fst r))
     (parse_from arg_strings osi p fuel i st).
Proof.
  intros Hr Hf. unfold parse_from.
  eapply ok_bind; [apply ok_loop; eassumption|]. intros [st1 j] H1. cbn in H1.
  eapply ok_bind; [apply ok_consume_positionals|]. intros [st2 k] [H2 _].
  cbn in H2.
  eapply ok_bind; [apply ok_check_required|]. intros [req ns'] H3. cbn in H3.
  destruct req; [|apply ok_error].
  cbn. eauto using extends_trans.
Qed.

Lemma classify_in_range l osi p :
  classify 0 l = Return (osi, p) -> in_range l osi /\ length p = length l.
Proof.
  intros E. pose proof (ok_classify l 0) as H. rewrite E in H. cbn in H.
  destruct H as [H1 H2]. split; [|exact H2].
  eapply Forall_impl; [|exact H1]. cbn. intros; lia.
Qed.

Lemma ok_parse_known_args fuel l ns :
  length l <= fuel ->
  ok (fun r => extends ns (fst r)) (_parse_known_args_fuel fuel l ns).
Proof.
  intros Hf. unfold _parse_known_args_fuel.
  destruct (classify 0 l) as [[osi p]| | |] eqn:E; cbn [bind];
    try (pose proof (ok_usage _ _ (ok_classify l 0)) as H; rewrite E in H; exact H).
  destruct (classify_in_range _ _ _ E) as [Hr _].
  apply (ok_parse_from l osi p fuel 0 (initial_state ns) Hr).
  pose proof (bound_in_range _ _ Hr). lia.
Qed.


(** *** Command lines that open with the links *)

Lemma main_unfold argv :
  main argv = finish (_parse_known_args_fuel (length argv) argv default_namespace).
Proof. reflexivity. Qed.

Lemma classify_option_first l : forall i osi p',
  classify i l = Return (osi, pat_O :: p') ->
  exists t osi', osi = (i, t) :: osi'.
Proof.
  destruct l as [|a l]; intros i osi p' H; cbn in H; [discriminate|].
  destruct (String.eqb a "--"); [discriminate|].
  destruct (_parse_optional a) as [o| | |]; cbn in H; try discriminate.
  destruct (classify (S i) l) as [[osi0 p0]| | |]; cbn in H; try discriminate.
  destruct o; inversion H; eauto.
Qed.

Lemma fold_min_zero ks : fold_left Nat.min ks 0 = 0.
Proof. induction ks as [|k ks IH]; [reflexivity | exact IH]. Qed.

Lemma filter_ge_zero ks : filter (fun index => (0 <=? index)%nat) ks = ks.
Proof.
  induction ks as [|k ks IH]; [reflexivity|]. cbn [filter]. rewrite IH. reflexivity.
Qed.

Lemma firstn_length_app {A : Type} (a b : list A) : firstn (length a) (a ++ b) = a.
Proof. induction a as [|x a IH]; [reflexivity|]. cbn. rewrite IH. reflexivity. Qed.

Lemma loop_no_options arg_strings p fuel i st :
  loop arg_strings [] p fuel i st = Return (st, i).
Proof.
  assert (H : (Z.of_nat i <=? max_option_string_index [])%Z = false).
  { apply Z.leb_gt. cbn. lia. }
  destruct fuel; cbn [loop]; rewrite H; reflexivity.
Qed.

Lemma parse_from_fuel arg_strings osi p f1 f2 i st :
  in_range arg_strings osi ->
  bound osi - i <= f1 -> bound osi - i <= f2 ->
  parse_from arg_strings osi p f1 i st = parse_from arg_strings osi p f2 i st.
Proof.
  intros Hr H1 H2. unfold parse_from.
  rewrite (loop_fuel arg_strings osi p f1 f2 i st Hr H1 H2). reflexivity.
Qed.

Lemma first_turn l links rest t osi p' fuel ns :
  Forall (fun s => plain s = true) (l :: links) ->
  let n := length (l :: links) in
  let args := (l :: links) ++ rest in
  let indices := shift_indices n ((0, t) :: osi) in
  let pattern := repeat pat_A n ++ pat_O :: p' in
  parse_from args indices pattern (S fuel) 0 (initial_state ns) =
  parse_from args indices pattern fuel (n + 0)
    {| namespace := setattr ns "links" (PyList (map PyStr (l :: links)));
       seen_actions := [links_action]; positionals := []; extras := [] |}.
Proof.
  intros Hplain n args indices pattern. unfold parse_from. f_equal.
  cbn [loop].
  assert (Hmax : (Z.of_nat 0 <=? max_option_string_index indices)%Z = true).
  { apply Z.leb_le. unfold max_option_string_index, indices. cbn [shift_indices map fst].
    lia. }
  rewrite Hmax.
  assert (Hbody : loop_body args indices pattern 0 (initial_state ns) =
                  Return ({| namespace := setattr ns "links" (PyList (map PyStr (l :: links)));
                             seen_actions := [links_action]; positionals := [];
                             extras := [] |}, n + 0)).
  { unfold loop_body, indices. rewrite keys_shift, filter_ge_zero, list_min_shift.
    cbn [map fst list_min option_map]. rewrite fold_min_zero.
    replace (0 =? n + 0)%nat with false by reflexivity. cbn [negb].
    rewrite (consume_positionals_links args pattern 0 (initial_state ns)
               (length links) (pat_O :: p') (l :: links)); try reflexivity; auto.
    - cbn [bind]. replace (0 <? 0 + S (length links))%nat with true by reflexivity.
      unfold n. cbn [length]. rewrite Nat.add_0_r. reflexivity.
    - unfold args. cbn [skipn]. apply (firstn_length_app (l :: links)). }
  rewrite Hbody. reflexivity.
Qed.

(** A command line that opens with links and goes on with an option (or
    ends): the links are stored and the parse goes on with what follows. *)
Lemma main_links_then links rest osi p :
  links <> [] ->
  Forall (fun s => plain s = true) links ->
  classify 0 rest = Return (osi, p) ->
  ends_group p ->
  main (links ++ rest) =
  finish (parse_from rest osi p (length rest) 0 (links_state links)).
Proof.
  intros Hne Hplain Hc Hp. rewrite main_unfold. f_equal.
  unfold _parse_known_args_fuel.
  rewrite (classify_plain_app links 0 rest Hplain), (classify_shift rest), Hc.
  cbn [bind].
  destruct (classify_in_range _ _ _ Hc) as [Hr Hlen].
  destruct links as [|l links]; [congruence|].
  destruct p as [|x p'].
  - destruct rest; [|discriminate]. cbn in Hc. inversion Hc; subst osi.
    unfold parse_from. cbn [shift_indices map]. rewrite !loop_no_options.
    cbn [bind].
    rewrite (consume_positionals_links _ _ 0 (initial_state default_namespace)
               (length links) [] (l :: links)); try reflexivity; auto.
    + change (consume_positionals [] [] 0 (links_state (l :: links)))
        with (Return (links_state (l :: links), 0)).
      cbn [bind with_links initial_state links_state seen_actions namespace extras].
      destruct (check_required _ _ _ _) as [[req ns']| | |]; cbn [bind];
        try reflexivity.
      destruct req; [|reflexivity].
      rewrite app_nil_r, skipn_all2 by (cbn; lia). reflexivity.
    + cbn [skipn]. apply (firstn_length_app (l :: links)).
  - cbn in Hp. subst x.
    destruct (classify_option_first _ _ _ _ Hc) as [t [osi' ->]].
    rewrite length_app. cbn [length Nat.add].
    rewrite (first_turn l links rest t osi' p' _ default_namespace Hplain).
    rewrite (parse_from_shift (l :: links) rest (repeat pat_A (S (length links)))
               (pat_O :: p') ((0, t) :: osi') (S (length links)));
      [|reflexivity|apply repeat_length].
    apply parse_from_fuel; [exact Hr | |];
      pose proof (bound_in_range _ _ Hr); lia.
Qed.


(** *** How a run ends *)

Lemma default_namespace_attrs :
  hasattr default_namespace "verbosity" = true
  /\ hasattr default_namespace "quality" = true
  /\ hasattr default_namespace "threads" = true.
Proof. repeat split. Qed.

Lemma hasattr_getattr ns k : hasattr ns k = true -> exists v, getattr ns k = Some v.
Proof. unfold hasattr. destruct (getattr ns k); [eauto | discriminate]. Qed.

Lemma ok_parse_args argv :
  ok_with good_exit
    (fun args => exists v q t,
        getattr args "verbosity" = Some v /\ getattr args "quality" = Some q
        /\ getattr args "threads" = Some t)
    (parse_args argv)
  /\ (forall e, parse_args argv <> Raise e).
Proof.
  unfold parse_args, parse_args_fuel, parse_known_args_fuel.
  pose proof (ok_parse_known_args (length argv) argv default_namespace (le_n _)) as H.
  fold default_namespace.
  destruct (_parse_known_args_fuel _ _ _) as [[ns extras]| | |]; cbn in *.
  - destruct extras; cbn.
    + split; [|discriminate].
      destruct default_namespace_attrs as [Hv [Hq Ht]].
      apply H, hasattr_getattr in Hv, Hq, Ht.
      destruct Hv as [v Hv], Hq as [q Hq], Ht as [t Ht]. eauto 7.
    + split; [|discriminate]. right. repeat split. eauto.
  - split; [|discriminate]. right. repeat split. eauto.
  - split; [exact H | discriminate].
  - destruct H.
Qed.

Lemma main_outcome argv :
  match main argv with
  | Completed args stdout =>
      exists v q t,
        getattr args "verbosity" = Some v /\ getattr args "quality" = Some q
        /\ getattr args "threads" = Some t
        /\ stdout = (if truthy v then summary q t else [])
  | SystemExit status stdout stderr => good_exit status stdout stderr
  | NoBehaviour => False
  end.
Proof.
  unfold main, script. destruct (ok_parse_args argv) as [H Hr].
  destruct (parse_args argv) as [args|e| |]; cbn in H.
  - destruct H as [v [q [t [Hv [Hq Ht]]]]]. rewrite Hv, Hq, Ht.
    destruct (truthy v) eqn:E; exists v, q, t; rewrite E; auto.
  - exact (Hr e eq_refl).
  - exact H.
  - exact H.
Qed.

Lemma empty_verbosity_after_links links :
  links_ok links ->
  main (links ++ ["-v"; ""]) =
  Completed (parsed links (PyStr "") (PyStr "720p") (PyInt 1)) [].
Proof.
  intros [Hne Hplain].
  rewrite (main_links_then links ["-v"; ""] _ _ Hne Hplain eq_refl eq_refl).
  vm_compute. reflexivity.
Qed.


(** *** An option and its value after the links *)

Lemma main_links_classify_exit links rest status stdout stderr :
  Forall (fun s => plain s = true) links ->
  classify 0 rest = Exit status stdout stderr ->
  main (links ++ rest) = SystemExit status stdout stderr.
Proof.
  intros Hplain Hc. rewrite main_unfold. unfold _parse_known_args_fuel.
  rewrite (classify_plain_app links 0 rest Hplain), (classify_shift rest), Hc.
  reflexivity.
Qed.

(** The links that open the command line are consumed; what follows is
    classified by computation. *)
Ltac links_first Hne Hplain :=
  match goal with
  | |- context [main (?l ++ ?r)] =>
      let c := eval vm_compute in (classify 0 r) in
      match c with
      | Return (?osi, ?p) =>
          let Hc := fresh "Hc" in
          let Hg := fresh "Hg" in
          assert (Hc : classify 0 r = Return (osi, p)) by (vm_compute; reflexivity);
          assert (Hg : ends_group p) by (cbn; auto);
          rewrite (main_links_then l r osi p Hne Hplain Hc Hg);
          clear Hc Hg
      end
  end.

(** An option with [nargs=None] given one string that is not ["--"]:
    the string is converted and checked. *)
Lemma get_values_one a s :
  nargs a = nargs_None ->
  String.eqb s "--" = false ->
  _get_values a [s] =
  (value <- _get_value a s ;; _check_value a value ;;; Return value).
Proof.
  intros Hn Hs. unfold _get_values. cbn [remove_first]. rewrite Hs, Hn. reflexivity.
Qed.

Lemma threads_in_range_after_links links v :
  links_ok links ->
  (1 <= v <= 31)%Z ->
  main (links ++ ["-t"; str_int v]) =
  Completed (parsed links PyNone (PyStr "720p") (PyInt v)) [].
Proof.
  intros [Hne Hplain] Hv.
  assert (H : exists k, k < 31 /\ v = (Z.of_nat k + 1)%Z).
  { exists (Z.to_nat (v - 1)). lia. }
  destruct H as [k [Hk ->]].
  do 31 (destruct k as [|k];
         [links_first Hne Hplain; vm_compute; reflexivity|]).
  lia.
Qed.

Lemma main_links_classify_raise links rest e :
  Forall (fun s => plain s = true) links ->
  classify 0 rest = Raise e ->
  main (links ++ rest) = SystemExit 2 [] [format_usage; error_line e].
Proof.
  intros Hplain Hc. rewrite main_unfold. unfold _parse_known_args_fuel.
  rewrite (classify_plain_app links 0 rest Hplain), (classify_shift rest), Hc.
  reflexivity.
Qed.

Lemma take_action_quality_invalid q st :
  String.eqb q "--" = false ->
  ~ In q ["1080p"; "720p"; "480p"] ->
  take_action quality_action [q] st =
  Raise (Build_ArgumentError (Some quality_action)
           (invalid_choice (PyStr q) (choices quality_action))).
Proof.
  intros Hdd Hq. unfold take_action.
  rewrite (get_values_one quality_action q eq_refl Hdd).
  cbn [_get_value type bind]. unfold _check_value.
  assert (H : in_choices (PyStr q) (choices quality_action) = false).
  { cbn. repeat (apply orb_false_iff; split); try reflexivity;
      apply String.eqb_neq; intros ->; apply Hq; cbn; auto. }
  rewrite H. reflexivity.
Qed.


Lemma quality_rejected_after_links links q :
  links_ok links ->
  ~ In q ["1080p"; "720p"; "480p"] ->
  exists e, main (links ++ ["-q"; q]) = SystemExit 2 [] [format_usage; error_line e].
Proof.
  intros [Hne Hplain] Hq.
  destruct (String.eqb q "--") eqn:Hdd.
  - apply String.eqb_eq in Hdd. subst q.
    links_first Hne Hplain. vm_compute. eauto.
  - pose proof (ok_parse_optional q) as Hok.
    destruct (_parse_optional q) as [[t|]|e|status stdout stderr|] eqn:Hpo;
      cbn in Hok.
    + assert (Hc : classify 0 ["-q"; q] =
                   Return ([(0, (Some quality_action, "-q", None)); (1, t)],
                           [pat_O; pat_O])).
      { cbn [classify]. rewrite Hdd, Hpo. reflexivity. }
      rewrite (main_links_then links _ _ _ Hne Hplain Hc eq_refl).
      vm_compute. eauto.
    + assert (Hc : classify 0 ["-q"; q] =
                   Return ([(0, (Some quality_action, "-q", None))], [pat_O; pat_A])).
      { cbn [classify]. rewrite Hdd, Hpo. reflexivity. }
      rewrite (main_links_then links _ _ _ Hne Hplain Hc eq_refl).
      unfold finish, parse_from. cbn -[take_action check_required].
      rewrite (take_action_quality_invalid q _ Hdd Hq). cbn. eauto.
    + assert (Hc : classify 0 ["-q"; q] = Raise e).
      { cbn [classify]. rewrite Hdd, Hpo. reflexivity. }
      rewrite (main_links_classify_raise links _ _ Hplain Hc). eauto.
    + assert (Hc : classify 0 ["-q"; q] = Exit status stdout stderr).
      { cbn [classify]. rewrite Hdd, Hpo. reflexivity. }
      rewrite (main_links_classify_exit links _ _ _ _ Hplain Hc).
      destruct Hok as [-> [-> [e ->]]]. eauto.
    + destruct Hok.
Qed.

Lemma quality_accepted_after_links links q :
  links_ok links ->
  In q ["1080p"; "720p"; "480p"] ->
  main (links ++ ["-q"; q]) =
  Completed (parsed links PyNone (PyStr q) (PyInt 1)) [].
Proof.
  intros [Hne Hplain] Hq. cbn in Hq.
  destruct Hq as [<-|[<-|[<-|[]]]]; links_first Hne Hplain; vm_compute; reflexivity.
Qed.



(** *** The bound of the loop and the text of the summary *)

Lemma parse_args_fuel_enough argv fuel :
  length argv <= fuel -> parse_args_fuel fuel argv = parse_args argv.
Proof.
  intros Hf. unfold parse_args, parse_args_fuel, parse_known_args_fuel.
  do 2 f_equal. unfold _parse_known_args_fuel.
  destruct (classify 0 argv) as [[osi p]| | |] eqn:Hc; try reflexivity.
  cbn [bind]. destruct (classify_in_range _ _ _ Hc) as [Hr _].
  pose proof (bound_in_range _ _ Hr).
  apply parse_from_fuel; [exact Hr | lia | lia].
Qed.

Lemma append_assoc (a b c : string) : ((a ++ b) ++ c = a ++ b ++ c)%string.
Proof. induction a as [|x a IH]; [reflexivity|]. cbn. rewrite IH. reflexivity. Qed.

Lemma summary_text q t :
  summary q t =
  [Text ("Verbose mode" ++ newline);
   Text ("Downloading " ++ py_str q ++ newline);
   Text ("Downloading with " ++ py_str t ++ " threads" ++ newline)].
Proof.
  unfold summary, print. cbn [map py_str Str.join].
  rewrite !append_assoc. reflexivity.
Qed.

(** *** An option and its value before the links *)

Lemma map_const_repeat {A B : Type} (b : B) (l : list A) :
  map (fun _ => b) l = repeat b (length l).
Proof. induction l as [|x l IH]; [reflexivity|]. cbn. rewrite IH. reflexivity. Qed.

Lemma classify_plain_suffix pre : forall i osi p links,
  classify i pre = Return (osi, p) ->
  Forall (fun s => plain s = true) links ->
  classify i (pre ++ links) = Return (osi, p ++ repeat pat_A (length links)).
Proof.
  induction pre as [|a pre IH]; intros i osi p links Hc Hplain.
  - cbn in Hc. inversion Hc; subst. cbn [app].
    pose proof (classify_plain_app links i [] Hplain) as H.
    rewrite app_nil_r in H. rewrite H. cbn. rewrite app_nil_r. reflexivity.
  - cbn [app classify] in *. destruct (String.eqb a "--").
    + inversion Hc; subst. rewrite map_app, (map_const_repeat pat_A links).
      reflexivity.
    + destruct (_parse_optional a) as [o| | |]; cbn [bind] in *; try discriminate.
      destruct (classify (S i) pre) as [[osi0 p0]| | |] eqn:E; cbn [bind] in Hc;
        try discriminate.
      rewrite (IH (S i) osi0 p0 links E Hplain). cbn [bind].
      destruct o; inversion Hc; subst; reflexivity.
Qed.

Lemma take_action_positionals a l st st' :
  take_action a l st = Return st' -> positionals st' = positionals st.
Proof.
  unfold take_action. destruct (_get_values a l); cbn [bind]; try discriminate.
  destruct (call a (namespace st) x); cbn [bind]; try discriminate.
  intros H. inversion H. reflexivity.
Qed.

(** A command line made of one option, its value, and the links. *)
Lemma main_option_then_links flag value a links :
  links_ok links ->
  classify 0 [flag; value] =
    Return ([(0, (Some a, flag, None))], [pat_O; pat_A]) ->
  (forall tl, _match_argument a (pat_A :: tl) = Return 1) ->
  main ([flag; value] ++ links) =
  finish (st <- take_action a [value] (initial_state default_namespace) ;;
          store_links_and_end links st).
Proof.
  intros [Hne Hplain] Hc Hm. rewrite main_unfold. f_equal.
  unfold _parse_known_args_fuel.
  rewrite (classify_plain_suffix [flag; value] 0 _ _ links Hc Hplain).
  cbn [bind app length]. unfold parse_from. cbn [loop].
  change (Z.of_nat 0 <=? max_option_string_index [(0%nat, (Some a, flag, None))])%Z
    with true. cbv iota.
  assert (Hbody : loop_body (flag :: value :: links) [(0, (Some a, flag, None))]
                    (pat_O :: pat_A :: repeat pat_A (length links)) 0
                    (initial_state default_namespace) =
                  (st <- take_action a [value] (initial_state default_namespace) ;;
                   Return (st, 2))).
  { unfold loop_body. cbn [map fst filter Nat.leb list_min fold_left Nat.eqb negb
                           bind existsb orb].
    unfold consume_optional. cbn [osi_get Nat.eqb]. unfold following.
    cbn [Nat.add skipn]. rewrite Hm. cbn [bind firstn app take_actions].
    destruct (take_action a [value] _); reflexivity. }
  rewrite Hbody, bind_assoc.
  destruct (take_action a [value] (initial_state default_namespace)) as [st| | |] eqn:Ht;
    cbn [bind]; try reflexivity.
  apply take_action_positionals in Ht. cbn [initial_state positionals] in Ht.
  change (Z.of_nat 2 <=? max_option_string_index [(0%nat, (Some a, flag, None))])%Z
    with false. cbv iota. cbn [bind].
  destruct links as [|l links]; [congruence|].
  rewrite (consume_positionals_links _ _ 2 st (length links) [] (l :: links));
    try reflexivity; auto.
  - cbn [bind with_links namespace seen_actions extras].
    unfold store_links_and_end.
    destruct (check_required _ _ _ _) as [[req ns']| | |]; cbn [bind]; try reflexivity.
    destruct req; [|reflexivity].
    replace (skipn (2 + S (length links)) (flag :: value :: l :: links))
      with (@nil string); [rewrite app_nil_r; reflexivity|].
    symmetry. apply skipn_all2. cbn. lia.
  - cbn [skipn length]. rewrite app_nil_r. reflexivity.
  - cbn [skipn]. change (S (length links)) with (length (l :: links)).
    apply firstn_all.
Qed.

(** A command line that opens with an option whose argument is missing. *)
Lemma main_option_missing_value flag a rest osi p e :
  classify 0 (flag :: rest) = Return ((0, (Some a, flag, None)) :: osi, pat_O :: p) ->
  _match_argument a p = Raise e ->
  main (flag :: rest) = SystemExit 2 [] [format_usage; error_line e].
Proof.
  intros Hc Hm. rewrite main_unfold. unfold _parse_known_args_fuel.
  rewrite Hc. cbn [bind length]. unfold parse_from. cbn [loop].
  assert (Hmax : (Z.of_nat 0 <=?
                  max_option_string_index ((0%nat, (Some a, flag, None)) :: osi))%Z
                 = true).
  { apply Z.leb_le. unfold max_option_string_index. cbn [map fst]. lia. }
  rewrite Hmax.
  assert (Hbody : loop_body (flag :: rest) ((0, (Some a, flag, None)) :: osi)
                    (pat_O :: p) 0 (initial_state default_namespace) = Raise e).
  { unfold loop_body. rewrite filter_ge_zero. cbn [map fst list_min].
    rewrite fold_min_zero. cbn [Nat.eqb negb bind existsb orb].
    unfold consume_optional. cbn [osi_get Nat.eqb]. unfold following.
    cbn [Nat.add skipn]. rewrite Hm. reflexivity. }
  rewrite Hbody. reflexivity.
Qed.

Lemma quality_rejected_before_links links q :
  links_ok links ->
  ~ In q ["1080p"; "720p"; "480p"] ->
  exists e, main (["-q"; q] ++ links) = SystemExit 2 [] [format_usage; error_line e].
Proof.
  intros Hl Hq. destruct Hl as [Hne Hplain].
  destruct (String.eqb q "--") eqn:Hdd.
  - apply String.eqb_eq in Hdd. subst q. eexists.
    eapply main_option_missing_value.
    + apply (classify_plain_suffix ["-q"; "--"] 0 _ _ links eq_refl Hplain).
    + reflexivity.
  - pose proof (ok_parse_optional q) as Hok.
    destruct (_parse_optional q) as [[t|]|e|status stdout stderr|] eqn:Hpo;
      cbn in Hok.
    + assert (Hc : classify 0 ["-q"; q] =
                   Return ([(0, (Some quality_action, "-q", None)); (1, t)],
                           [pat_O; pat_O])).
      { cbn [classify]. rewrite Hdd, Hpo. reflexivity. }
      eexists. eapply main_option_missing_value.
      * apply (classify_plain_suffix ["-q"; q] 0 _ _ links Hc Hplain).
      * reflexivity.
    + assert (Hc : classify 0 ["-q"; q] =
                   Return ([(0, (Some quality_action, "-q", None))], [pat_O; pat_A])).
      { cbn [classify]. rewrite Hdd, Hpo. reflexivity. }
      rewrite (main_option_then_links "-q" q quality_action links
                 (conj Hne Hplain) Hc (fun tl => eq_refl)).
      rewrite (take_action_quality_invalid q _ Hdd Hq). cbn. eauto.
    + rewrite main_unfold. unfold _parse_known_args_fuel.
      cbn [app classify]. rewrite Hdd, Hpo. cbn. eauto.
    + rewrite main_unfold. unfold _parse_known_args_fuel.
      cbn [app classify]. rewrite Hdd, Hpo. cbn.
      destruct Hok as [-> [-> [e ->]]]. eauto.
    + destruct Hok.
Qed.

(** The option and its value come first; both are concrete. *)
Ltac option_first Hl :=
  match goal with
  | |- context [main ([?flag; ?value] ++ ?l)] =>
      let c := eval vm_compute in (classify 0 [flag; value]) in
      match c with
      | Return ([(0, (Some ?a, _, None))], _) =>
          rewrite (main_option_then_links flag value a l Hl eq_refl
                     (fun tl => eq_refl))
      end
  end.

Lemma threads_in_range_before_links links v :
  links_ok links ->
  (1 <= v <= 31)%Z ->
  main (["-t"; str_int v] ++ links) =
  Completed (parsed links PyNone (PyStr "720p") (PyInt v)) [].
Proof.
  intros Hl Hv.
  assert (H : exists k, k < 31 /\ v = (Z.of_nat k + 1)%Z).
  { exists (Z.to_nat (v - 1)). lia. }
  destruct H as [k [Hk ->]].
  do 31 (destruct k as [|k]; [option_first Hl; vm_compute; reflexivity|]).
  lia.
Qed.

Lemma threads_rejected_before_links links bad m :
  links_ok links ->
  In (bad, m) bad_threads ->
  main (["-t"; bad] ++ links) =
  SystemExit 2 [] [format_usage; error_line (Build_ArgumentError (Some threads_action) m)].
Proof.
  intros Hl Hin. cbn in Hin.
  repeat (destruct Hin as [Hin|Hin];
          [inversion Hin; subst; option_first Hl; vm_compute; reflexivity|]).
  destruct Hin.
Qed.

Lemma threads_rejected_after_links links bad m :
  links_ok links ->
  In (bad, m) bad_threads ->
  main (links ++ ["-t"; bad]) =
  SystemExit 2 [] [format_usage; error_line (Build_ArgumentError (Some threads_action) m)].
Proof.
  intros [Hne Hplain] Hin. cbn in Hin.
  repeat (destruct Hin as [Hin|Hin];
          [inversion Hin; subst; links_first Hne Hplain; vm_compute; reflexivity|]).
  destruct Hin.
Qed.

Lemma quality_accepted_before_links links q :
  links_ok links ->
  In q ["1080p"; "720p"; "480p"] ->
  main (["-q"; q] ++ links) =
  Completed (parsed links PyNone (PyStr q) (PyInt 1)) [].
Proof.
  intros Hl Hq. cbn in Hq.
  destruct Hq as [<-|[<-|[<-|[]]]]; option_first Hl; vm_compute; reflexivity.
Qed.


Lemma empty_verbosity_before_links links :
  links_ok links ->
  main (["-v"; ""] ++ links) =
  Completed (parsed links (PyStr "") (PyStr "720p") (PyInt 1)) [].
Proof. intros Hl. option_first Hl. vm_compute. reflexivity. Qed.

(** ** The claims of the specification *)

(** C1. A command line made of links only (at least one, none starting
    with the prefix character) is parsed with [quality = '720p'] and
    [threads = 1], the links in their order, and nothing is printed. *)
Theorem defaults_without_flags links :
  links_ok links ->
  main links = Completed (parsed links PyNone (PyStr "720p") (PyInt 1)) [].
Proof.
  intros [Hne Hplain]. rewrite <- (app_nil_r links) at 1.
  rewrite (main_links_then links [] [] [] Hne Hplain eq_refl I).
  vm_compute. reflexivity.
Qed.

Lemma defaults_without_flags_witness :
  main ["http://a"; "b"] =
  Completed (parsed ["http://a"; "b"] PyNone (PyStr "720p") (PyInt 1)) [].
Proof.
  apply (defaults_without_flags ["http://a"; "b"]).
  split; [discriminate | repeat constructor].
Defined.

(** C2. With links and [-t v], the option after the links or before
    them: for every integer [v] from 1 to 31, written in decimal, the parse
    succeeds with [threads = v]; for [0], [32], [-1] and [abc] it ends
    with the usage, an error on [-t/--threads] (an invalid choice for the
    first three, an invalid int value for the last) and status 2. *)
Theorem threads_validated links :
  links_ok links ->
  (forall v, (1 <= v <= 31)%Z ->
     main (links ++ ["-t"; str_int v]) =
       Completed (parsed links PyNone (PyStr "720p") (PyInt v)) []
     /\ main (["-t"; str_int v] ++ links) =
       Completed (parsed links PyNone (PyStr "720p") (PyInt v)) [])
  /\ (forall bad m, In (bad, m) bad_threads ->
     main (links ++ ["-t"; bad]) =
       SystemExit 2 []
         [format_usage; error_line (Build_ArgumentError (Some threads_action) m)]
     /\ main (["-t"; bad] ++ links) =
       SystemExit 2 []
         [format_usage; error_line (Build_ArgumentError (Some threads_action) m)]).
Proof.
  intros Hl. split.
  - intros v Hv. split.
    + apply threads_in_range_after_links; assumption.
    + apply threads_in_range_before_links; assumption.
  - intros bad m Hin. split.
    + apply threads_rejected_after_links; assumption.
    + apply threads_rejected_before_links; assumption.
Qed.

Lemma threads_validated_witness :
  main (["a"] ++ ["-t"; str_int 31]) =
    Completed (parsed ["a"] PyNone (PyStr "720p") (PyInt 31)) []
  /\ main (["a"] ++ ["-t"; "32"]) =
    SystemExit 2 []
      [format_usage;
       error_line (Build_ArgumentError (Some threads_action)
                     (invalid_choice (PyInt 32) (choices threads_action)))].
Proof.
  assert (Hl : links_ok ["a"]) by (split; [discriminate | repeat constructor]).
  split.
  - apply (proj1 (threads_validated ["a"] Hl) 31%Z). lia.
  - apply (proj2 (threads_validated ["a"] Hl) "32"). cbn. auto.
Defined.

(** C3. With links and [-q q], the option after the links or before
    them: for [q] one of [1080p], [720p], [480p] the parse succeeds with
    [quality = q]; for every other string [q] the run ends with the usage
    and an error on the error stream and status 2. *)
Theorem quality_validated links :
  links_ok links ->
  (forall q, In q ["1080p"; "720p"; "480p"] ->
     main (links ++ ["-q"; q]) =
       Completed (parsed links PyNone (PyStr q) (PyInt 1)) []
     /\ main (["-q"; q] ++ links) =
       Completed (parsed links PyNone (PyStr q) (PyInt 1)) [])
  /\ (forall q, ~ In q ["1080p"; "720p"; "480p"] ->
     (exists e, main (links ++ ["-q"; q]) =
                SystemExit 2 [] [format_usage; error_line e])
     /\ (exists e, main (["-q"; q] ++ links) =
                   SystemExit 2 [] [format_usage; error_line e])).
Proof.
  intros Hl. split.
  - intros q Hq. split.
    + apply quality_accepted_after_links; assumption.
    + apply quality_accepted_before_links; assumption.
  - intros q Hq. split.
    + apply quality_rejected_after_links; assumption.
    + apply quality_rejected_before_links; assumption.
Qed.

Lemma quality_validated_witness :
  main (["a"; "b"] ++ ["-q"; "480p"]) =
    Completed (parsed ["a"; "b"] PyNone (PyStr "480p") (PyInt 1)) []
  /\ exists e, main (["a"; "b"] ++ ["-q"; "4k"]) =
               SystemExit 2 [] [format_usage; error_line e].
Proof.
  assert (Hl : links_ok ["a"; "b"]) by (split; [discriminate | repeat constructor]).
  split.
  - apply (proj1 (quality_validated ["a"; "b"] Hl) "480p"). cbn. auto.
  - apply (proj2 (quality_validated ["a"; "b"] Hl) "4k").
    cbn. intros [H|[H|[H|[]]]]; discriminate.
Defined.

(** C4. The command line
    [http://a http://b -v x -q 1080p -t 4] is parsed into the two links in
    their order, quality [1080p] and 4 threads, and standard output receives
    the notice, [Downloading 1080p] and [Downloading with 4 threads], in
    this order. *)
Theorem full_command_line :
  main ["http://a"; "http://b"; "-v"; "x"; "-q"; "1080p"; "-t"; "4"] =
  Completed
    (parsed ["http://a"; "http://b"] (PyStr "x") (PyStr "1080p") (PyInt 4))
    [Text ("Verbose mode" ++ newline);
     Text ("Downloading 1080p" ++ newline);
     Text ("Downloading with 4 threads" ++ newline)].
Proof. vm_compute. reflexivity. Qed.

(** C5. With no argument at all the parse fails: the usage and the error
    naming the required [links] go to the error stream, the exit status is
    2 and no namespace is produced. *)
Theorem no_links :
  main [] =
  SystemExit 2 []
    [format_usage;
     error_line (Build_ArgumentError None (required_arguments ["links"]))].
Proof. vm_compute. reflexivity. Qed.




(** C7. When the summary is printed, [verbosity] is truthy and standard
    output holds exactly three lines, in this order: the notice, the
    quality of the namespace after [Downloading], and the threads of the
    namespace in [Downloading with ... threads]. *)
Theorem summary_lines argv args stdout :
  main argv = Completed args stdout ->
  stdout <> [] ->
  exists v q t,
    getattr args "verbosity" = Some v /\ truthy v = true
    /\ getattr args "quality" = Some q /\ getattr args "threads" = Some t
    /\ stdout =
       [Text ("Verbose mode" ++ newline);
        Text ("Downloading " ++ py_str q ++ newline);
        Text ("Downloading with " ++ py_str t ++ " threads" ++ newline)].
Proof.
  intros Hm Hne. pose proof (main_outcome argv) as H. rewrite Hm in H.
  destruct H as [v [q [t [Hv [Hq [Ht Hs]]]]]].
  destruct (truthy v) eqn:E; [|congruence].
  exists v, q, t. rewrite Hs, summary_text. auto.
Qed.

Lemma summary_lines_witness :
  exists v q t,
    getattr (parsed ["a"] (PyStr "x") (PyStr "480p") (PyInt 31)) "verbosity" = Some v
    /\ truthy v = true
    /\ getattr (parsed ["a"] (PyStr "x") (PyStr "480p") (PyInt 31)) "quality" = Some q
    /\ getattr (parsed ["a"] (PyStr "x") (PyStr "480p") (PyInt 31)) "threads" = Some t
    /\ [Text ("Verbose mode" ++ newline);
        Text ("Downloading 480p" ++ newline);
        Text ("Downloading with 31 threads" ++ newline)] =
       [Text ("Verbose mode" ++ newline);
        Text ("Downloading " ++ py_str q ++ newline);
        Text ("Downloading with " ++ py_str t ++ " threads" ++ newline)].
Proof.
  apply (summary_lines ["a"; "-q"; "480p"; "--threads=31"; "-vx"]).
  - vm_compute. reflexivity.
  - discriminate.
Defined.

(** C10. With [-v] given the empty string, after the links or before
    them, the parse succeeds with [verbosity = ''] and nothing is
    printed: the summary needs a truthy value, not the presence of the
    flag. *)
Theorem empty_verbosity_silent links :
  links_ok links ->
  main (links ++ ["-v"; ""]) =
    Completed (parsed links (PyStr "") (PyStr "720p") (PyInt 1)) []
  /\ main (["-v"; ""] ++ links) =
    Completed (parsed links (PyStr "") (PyStr "720p") (PyInt 1)) [].
Proof.
  intros Hl. split.
  - apply empty_verbosity_after_links; assumption.
  - apply empty_verbosity_before_links; assumption.
Qed.

Lemma empty_verbosity_silent_witness :
  main (["a"] ++ ["-v"; ""]) =
    Completed (parsed ["a"] (PyStr "") (PyStr "720p") (PyInt 1)) []
  /\ main (["-v"; ""] ++ ["a"]) =
    Completed (parsed ["a"] (PyStr "") (PyStr "720p") (PyInt 1)) [].
Proof.
  apply (empty_verbosity_silent ["a"]).
  split; [discriminate | repeat constructor].
Defined.

(** ** Further properties of the parser *)

(** *** The separator *)

Lemma re_star_letters k s : forall p' len,
  (forall t l, k t l = Some [l]) ->
  Forall argument_letter s ->
  ends_group p' ->
  re_star [pat_A; pat_dash] k (s ++ p') len = Some [len + length s].
Proof.
  induction s as [|x s IH]; intros p' len Hk Hs Hp.
  - cbn [app length]. rewrite Nat.add_0_r.
    destruct p' as [|y p']; [apply Hk|]. cbn in Hp. subst y. apply Hk.
  - inversion Hs as [|? ? Hx Hs']; subst.
    cbn [app re_star]. destruct Hx as [-> | ->]; cbn [existsb pat_eqb orb];
      rewrite (IH p' (S len) Hk Hs' Hp); cbn [length]; do 2 f_equal; lia.
Qed.

Lemma repeat_argument_letters m : Forall argument_letter (repeat pat_A m).
Proof. induction m; cbn; constructor; [left; reflexivity | assumption]. Qed.

(** The pattern of the positional on links, a ["--"], and more strings. *)
Lemma match_partial_separator n m :
  1 <= n + m ->
  _match_arguments_partial [links_action]
    (repeat pat_A n ++ pat_dash :: repeat pat_A m) = [n + 1 + m].
Proof.
  intros H. unfold _match_arguments_partial. cbn [length match_partial_upto firstn
    flat_map _get_nargs_pattern nargs option_strings app].
  destruct n as [|n].
  - destruct m as [|m]; [lia|]. cbn [repeat app re_match re_star existsb pat_eqb orb].
    rewrite <- (app_nil_r (repeat pat_A m)).
    rewrite re_star_letters;
      [| reflexivity | apply repeat_argument_letters | exact I].
    rewrite repeat_length. reflexivity.
  - cbn [repeat app re_match re_star existsb pat_eqb orb].
    rewrite <- (app_nil_r (repeat pat_A n ++ pat_dash :: repeat pat_A m)).
    rewrite re_star_letters; [| reflexivity | | exact I].
    + rewrite length_app. cbn [length]. rewrite !repeat_length.
      cbn. do 2 f_equal. lia.
    + apply Forall_app. split; [apply repeat_argument_letters|].
      constructor; [right; reflexivity | apply repeat_argument_letters].
Qed.

Lemma remove_first_separator links rest :
  Forall (fun s => plain s = true) links ->
  remove_first "--" (links ++ "--" :: rest) = links ++ rest.
Proof.
  induction 1 as [|l links Hl _ IH]; [reflexivity|].
  cbn [app remove_first]. rewrite (plain_not_double_dash _ Hl), IH. reflexivity.
Qed.

Lemma classify_separator links rest :
  Forall (fun s => plain s = true) links ->
  classify 0 (links ++ "--" :: rest) =
  Return ([], repeat pat_A (length links) ++ pat_dash :: repeat pat_A (length rest)).
Proof.
  intros H. rewrite (classify_plain_app links 0 _ H). cbn [classify String.eqb].
  change (String.eqb "--" "--") with true. cbv iota. cbn [bind].
  rewrite map_const_repeat. reflexivity.
Qed.

(** X1. After ["--"] every string is a link, whatever it looks like: the
    links before the separator and all the strings after it are stored, in
    their order, and the options keep their defaults. *)
Theorem separator_ends_options links rest :
  Forall (fun s => plain s = true) links ->
  links ++ rest <> [] ->
  main (links ++ "--" :: rest) =
  Completed (parsed (links ++ rest) PyNone (PyStr "720p") (PyInt 1)) [].
Proof.
  intros Hplain Hne. rewrite main_unfold. unfold _parse_known_args_fuel.
  rewrite (classify_separator links rest Hplain). cbn [bind].
  unfold parse_from. rewrite loop_no_options. cbn [bind].
  unfold consume_positionals. cbn [initial_state positionals skipn].
  change _get_positional_actions with [links_action].
  rewrite match_partial_separator.
  2:{ destruct links, rest; cbn in *; try lia. congruence. }
  cbn [combine take_positionals skipn].
  assert (Hall : firstn (length links + 1 + length rest) (links ++ "--" :: rest) =
                 links ++ "--" :: rest).
  { apply firstn_all2. rewrite length_app. cbn. lia. }
  rewrite Hall. unfold take_action, _get_values.
  rewrite (remove_first_separator links rest Hplain). cbn [nargs].
  rewrite get_each_links. cbn [bind]. rewrite check_each_links. cbn [bind call action_class dest].
  cbn [bind length skipn namespace seen_actions extras positionals].
  rewrite skipn_all2 by (rewrite length_app; cbn; lia).
  vm_compute. reflexivity.
Qed.

Lemma separator_ends_options_witness :
  main (["a"] ++ "--" :: ["-t"; "--"; "-h"]) =
  Completed (parsed (["a"] ++ ["-t"; "--"; "-h"]) PyNone (PyStr "720p") (PyInt 1)) [].
Proof.
  apply (separator_ends_options ["a"] ["-t"; "--"; "-h"]).
  - repeat constructor.
  - discriminate.
Defined.

(** *** The help option and ambiguous abbreviations *)

Lemma in_prefix_chars_dash c : in_prefix_chars c = true -> c = "-"%char.
Proof.
  change (in_prefix_chars c) with (Ascii.eqb "-" c || false).
  rewrite orb_false_r. intros H. apply Ascii.eqb_eq in H. congruence.
Qed.

Lemma option_tuples_single_dash c1 tail :
  c1 <> "-"%char ->
  exists l, _get_option_tuples "-" c1 tail = Return l /\ length l <= 1.
Proof.
  intros Hc. unfold _get_option_tuples.
  destruct c1 as [[] [] [] [] [] [] [] []]; try congruence;
    cbn; destruct tail; cbn; eexists; (split; [reflexivity | cbn; lia]).
Qed.

Lemma option_tuples_double_dash c2 t :
  c2 <> "="%char ->
  exists l, _get_option_tuples "-" "-" (String c2 t) = Return l /\ length l <= 1.
Proof.
  intros Hc. unfold _get_option_tuples.
  cbn [in_prefix_chars prefix_chars Str.contains Ascii.eqb Bool.eqb andb orb].
  assert (Hsplit : forall x, exists a, fst (Str.split1 "=" (String "-" (String "-" (String c2 x)))) = String "-" (String "-" (String c2 a))).
  { intros x. cbn [Str.split1]. change (Ascii.eqb "-" "=") with false. cbv iota.
    destruct (Ascii.eqb_spec c2 "="); [congruence|].
    destruct (Str.split1 "=" x) as [a b]. exists a. reflexivity. }
  assert (Hone : forall a e,
             length (flat_map
                       (fun '(s, action) =>
                          if Str.startswith s (String "-" (String "-" (String c2 a)))
                          then [(Some action, s, e)] else [])
                       _option_string_actions : list option_tuple) <= 1).
  { intros a e. unfold Str.startswith.
    destruct c2 as [[] [] [] [] [] [] [] []]; cbn;
      repeat match goal with
             | |- context [if ?b then _ else _] => destruct b
             end; cbn; lia. }
  destruct (Hsplit t) as [a Ha].
  destruct (Str.split1 "=" (String "-" (String "-" (String c2 t)))) as [a' b].
  cbn in Ha. subst a'.
  match goal with |- context [if ?b then _ else _] => destruct b end;
    eexists; (split; [reflexivity | apply Hone]).
Qed.

Lemma parse_optional_total s :
  unambiguous s = true ->
  String.eqb s "--" = false ->
  exists o, _parse_optional s = Return o.
Proof.
  intros Hu Hdd. unfold _parse_optional.
  destruct s as [|c0 rest]; [eauto|].
  destruct (in_prefix_chars c0) eqn:Hc0; cbn [negb]; [|eauto].
  apply in_prefix_chars_dash in Hc0. subst c0.
  destruct (dict_get _ _); [eauto|].
  destruct rest as [|c1 tail]; [eauto|].
  match goal with |- context [match ?x with Some _ => _ | None => _ end] =>
    destruct x end; [eauto|].
  assert (H : exists l, _get_option_tuples "-" c1 tail = Return l /\ length l <= 1).
  { destruct (Ascii.eqb_spec c1 "-") as [->|Hne].
    - destruct tail as [|c2 t]; [vm_compute in Hdd; discriminate|].
      apply option_tuples_double_dash. intros ->. destruct t; vm_compute in Hu; discriminate.
    - apply option_tuples_single_dash. exact Hne. }
  destruct H as [l [-> Hl]]. cbn [bind].
  destruct l as [|t1 [|t2 l]]; [| eauto | cbn in Hl; lia].
  destruct (_ && _); [eauto|]. destruct (Str.contains _ _); eauto.
Qed.

Lemma classify_total l : forall i,
  Forall (fun s => unambiguous s = true) l ->
  exists osi p, classify i l = Return (osi, p).
Proof.
  induction l as [|a l IH]; intros i H; cbn [classify]; [eauto|].
  inversion H as [|? ? Ha Hl]; subst.
  destruct (String.eqb a "--") eqn:Hdd; [eauto|].
  destruct (parse_optional_total a Ha Hdd) as [o ->]. cbn [bind].
  destruct (IH (S i) Hl) as [osi [p ->]]. cbn [bind].
  destruct o; eauto.
Qed.

Lemma parse_optional_ambiguous x :
  _parse_optional ("--=" ++ x)%string =
  error (Build_ArgumentError None
           (ambiguous_option ("--=" ++ x)%string
              ["--help"; "--verbosity"; "--quality"; "--threads"])).
Proof. reflexivity. Qed.

(** The help option at the head of what is left to parse ends the run. *)
Lemma parse_from_help flag rest osi p fuel st :
  parse_from (flag :: rest) ((0, (Some help_action, flag, None)) :: osi)
    (pat_O :: p) (S fuel) 0 st =
  Exit 0 [format_help] [].
Proof.
  unfold parse_from. cbn [loop].
  assert (Hmax : (Z.of_nat 0 <=?
                  max_option_string_index
                    ((0%nat, (Some help_action, flag, None)) :: osi))%Z = true).
  { apply Z.leb_le. unfold max_option_string_index. cbn [map fst]. lia. }
  rewrite Hmax.
  assert (Hbody : loop_body (flag :: rest)
                    ((0, (Some help_action, flag, None)) :: osi)
                    (pat_O :: p) 0 st = Exit 0 [format_help] []).
  { unfold loop_body. rewrite filter_ge_zero. cbn [map fst list_min].
    rewrite fold_min_zero. cbn [Nat.eqb negb bind existsb orb].
    unfold consume_optional. cbn [osi_get Nat.eqb]. reflexivity. }
  rewrite Hbody. reflexivity.
Qed.

Lemma classify_help_first flag rest :
  In flag ["-h"; "--help"] ->
  Forall (fun s => unambiguous s = true) rest ->
  exists osi p,
    classify 0 (flag :: rest) =
    Return ((0, (Some help_action, flag, None)) :: osi, pat_O :: p).
Proof.
  intros Hf Hr. destruct (classify_total rest 1 Hr) as [osi [p E]].
  exists osi, p. cbn in Hf.
  destruct Hf as [<-|[<-|[]]]; cbn [classify]; rewrite E; reflexivity.
Qed.

(** X2. The help option, first on the command line or right after the
    links, prints the help and ends the run with status 0, whatever follows
    it (a missing link, an invalid value, an unknown option), unless a string
    that follows is an ambiguous abbreviation. *)
Theorem help_wins flag links rest :
  In flag ["-h"; "--help"] ->
  Forall (fun s => plain s = true) links ->
  Forall (fun s => unambiguous s = true) rest ->
  main (links ++ flag :: rest) = SystemExit 0 [format_help] [].
Proof.
  intros Hf Hplain Hr.
  destruct (classify_help_first flag rest Hf Hr) as [osi [p Hc]].
  destruct links as [|l links].
  - cbn [app]. rewrite main_unfold. unfold _parse_known_args_fuel.
    rewrite Hc. cbn [bind length]. rewrite parse_from_help. reflexivity.
  - rewrite (main_links_then (l :: links) (flag :: rest) _ _
               ltac:(discriminate) Hplain Hc eq_refl).
    cbn [length]. rewrite parse_from_help. reflexivity.
Qed.

Lemma help_wins_witness :
  main (["a"] ++ "--help" :: ["-t"; "0"; "-x"; "b"]) = SystemExit 0 [format_help] [].
Proof.
  apply (help_wins "--help" ["a"] ["-t"; "0"; "-x"; "b"]).
  - cbn. auto.
  - repeat constructor.
  - repeat constructor.
Defined.

Lemma classify_ambiguous pre x post : forall i,
  Forall (fun s => unambiguous s = true /\ String.eqb s "--" = false) pre ->
  classify i (pre ++ ("--=" ++ x)%string :: post) =
  error (Build_ArgumentError None
           (ambiguous_option ("--=" ++ x)%string
              ["--help"; "--verbosity"; "--quality"; "--threads"])).
Proof.
  induction pre as [|a pre IH]; intros i H.
  - cbn [app classify]. change (String.eqb ("--=" ++ x)%string "--") with false.
    cbv iota. rewrite parse_optional_ambiguous. reflexivity.
  - inversion H as [|? ? [Ha Hdd] Hp]; subst. cbn [app classify].
    rewrite Hdd. destruct (parse_optional_total a Ha Hdd) as [o ->].
    cbn [bind]. rewrite (IH (S i) Hp). reflexivity.
Qed.

(** X3. A string that starts with ["--="] abbreviates the four long
    options at once: wherever it stands before a ["--"], the run ends with
    the ambiguity reported and status 2, before any option is acted on, the
    help option included. *)
Theorem ambiguous_abbreviation pre x post :
  Forall (fun s => unambiguous s = true /\ String.eqb s "--" = false) pre ->
  main (pre ++ ("--=" ++ x)%string :: post) =
  SystemExit 2 []
    [format_usage;
     error_line (Build_ArgumentError None
                   (ambiguous_option ("--=" ++ x)%string
                      ["--help"; "--verbosity"; "--quality"; "--threads"]))].
Proof.
  intros H. rewrite main_unfold. unfold _parse_known_args_fuel.
  rewrite (classify_ambiguous pre x post 0 H). reflexivity.
Qed.

Lemma ambiguous_abbreviation_witness :
  main (["a"; "-h"] ++ ("--=" ++ "1080p")%string :: ["b"]) =
  SystemExit 2 []
    [format_usage;
     error_line (Build_ArgumentError None
                   (ambiguous_option ("--=" ++ "1080p")%string
                      ["--help"; "--verbosity"; "--quality"; "--threads"]))].
Proof.
  apply (ambiguous_abbreviation ["a"; "-h"] "1080p" ["b"]).
  repeat constructor.
Defined.

(** *** Options that the parse has passed *)

Lemma fold_max_ge ks : forall k j,
  j <= fold_left Nat.max ks k <-> j <= k \/ Exists (fun x => j <= x) ks.
Proof.
  induction ks as [|a ks IH]; intros k j; cbn [fold_left].
  - split; [auto | intros [H|H]; [exact H | inversion H]].
  - rewrite IH. split.
    + intros [H|H]; [|right; apply Exists_cons_tl; exact H].
      destruct (Nat.max_spec k a) as [[_ E]|[_ E]]; rewrite E in H; auto.
    + intros [H|H]; [left; lia|].
      inversion H; subst; [left; lia | right; assumption].
Qed.

Lemma max_ge_existsb o j :
  (Z.of_nat j <=? max_option_string_index o)%Z =
  existsb (fun k => (j <=? k)%nat) (map fst o).
Proof.
  unfold max_option_string_index. destruct (map fst o) as [|k ks].
  - cbn. apply Z.leb_gt. lia.
  - apply eq_true_iff_eq. rewrite Z.leb_le, existsb_exists.
    rewrite <- Nat2Z.inj_le, fold_max_ge. split.
    + intros [H|H].
      * exists k. split; [left; reflexivity | apply Nat.leb_le; exact H].
      * apply Exists_exists in H. destruct H as [x [H1 H2]].
        exists x. split; [right; exact H1 | apply Nat.leb_le; exact H2].
    + intros [x [[<-|H1] H2]]; apply Nat.leb_le in H2; [left; exact H2|].
      right. apply Exists_exists. eauto.
Qed.

Section DropLow.

(** Options that stand before position [n] no longer count once the parse
    has reached [n]. *)
Variable arg_strings : list string.
Variables low o : list (nat * option_tuple).
Variable p : list pat.
Variable n : nat.
Hypothesis Hlow : Forall (fun k => k < n) (map fst low).
Hypothesis Hrange : in_range arg_strings o.

Lemma keys_low_app : map fst (low ++ o) = map fst low ++ map fst o.
Proof. apply map_app. Qed.

Lemma filter_drop_low j :
  n <= j ->
  filter (fun index => (j <=? index)%nat) (map fst (low ++ o)) =
  filter (fun index => (j <=? index)%nat) (map fst o).
Proof.
  intros Hj. rewrite keys_low_app, filter_app.
  replace (filter _ (map fst low)) with (@nil nat); [reflexivity|].
  symmetry. induction (map fst low) as [|k ks IH]; [reflexivity|].
  inversion Hlow as [|? ? Hk Hks]; subst. cbn [filter].
  replace (j <=? k)%nat with false by (symmetry; apply Nat.leb_gt; lia).
  apply IH. exact Hks.
Qed.

Lemma existsb_drop_low (f : nat -> nat -> bool) j :
  (forall k, k < n -> f j k = false) ->
  existsb (f j) (map fst (low ++ o)) = existsb (f j) (map fst o).
Proof.
  intros Hf. rewrite keys_low_app, existsb_app.
  replace (existsb (f j) (map fst low)) with false; [reflexivity|].
  symmetry. induction (map fst low) as [|k ks IH]; [reflexivity|].
  inversion Hlow as [|? ? Hk Hks]; subst. cbn [existsb].
  rewrite (Hf k Hk). apply IH. exact Hks.
Qed.

Lemma osi_get_drop_low j : n <= j -> osi_get j (low ++ o) = osi_get j o.
Proof.
  intros Hj. induction low as [|[k t] l IH]; [reflexivity|].
  inversion Hlow as [|? ? Hk Hks]; subst. cbn [app osi_get].
  replace (k =? j)%nat with false by (symmetry; apply Nat.eqb_neq; cbn in Hk; lia).
  apply IH. exact Hks.
Qed.

Lemma max_drop_low j :
  n <= j ->
  (Z.of_nat j <=? max_option_string_index (low ++ o))%Z =
  (Z.of_nat j <=? max_option_string_index o)%Z.
Proof.
  intros Hj. rewrite !max_ge_existsb.
  apply (existsb_drop_low (fun a b => (a <=? b)%nat)).
  intros k Hk. apply Nat.leb_gt. lia.
Qed.

Lemma consume_optional_drop_low j st :
  n <= j ->
  consume_optional arg_strings (low ++ o) p j st =
  consume_optional arg_strings o p j st.
Proof. intros Hj. unfold consume_optional. rewrite osi_get_drop_low by exact Hj. reflexivity. Qed.

Lemma loop_body_drop_low j st :
  n <= j ->
  loop_body arg_strings (low ++ o) p j st = loop_body arg_strings o p j st.
Proof.
  intros Hj. unfold loop_body. rewrite filter_drop_low by exact Hj.
  destruct (list_min _) as [next|] eqn:Hnext; [|reflexivity].
  assert (Hge : j <= next).
  { cbn [list_min] in Hnext.
    destruct (filter _ (map fst o)) as [|m ms] eqn:F; [discriminate|].
    inversion Hnext; subst. pose proof (fold_min_in ms m) as Hin.
    rewrite <- F in Hin. apply filter_In in Hin. destruct Hin as [_ H].
    apply Nat.leb_le in H. exact H. }
  destruct (negb (j =? next)%nat).
  - pose proof (ok_consume_positionals arg_strings p j st) as Hc.
    destruct (consume_positionals arg_strings p j st) as [[st' e]| | |];
      cbn [bind]; try reflexivity.
    cbn in Hc. destruct Hc as [_ He].
    destruct (j <? e)%nat; [reflexivity|].
    rewrite (existsb_drop_low Nat.eqb e)
      by (intros k Hk; apply Nat.eqb_neq; lia).
    destruct (negb (existsb _ _)); apply consume_optional_drop_low; lia.
  - cbn [bind].
    rewrite (existsb_drop_low Nat.eqb j)
      by (intros k Hk; apply Nat.eqb_neq; lia).
    destruct (negb (existsb _ _)); apply consume_optional_drop_low; lia.
Qed.

Lemma loop_drop_low fuel : forall j st,
  n <= j ->
  loop arg_strings (low ++ o) p fuel j st = loop arg_strings o p fuel j st.
Proof.
  induction fuel as [|fuel IH]; intros j st Hj; cbn [loop];
    rewrite max_drop_low by exact Hj; [reflexivity|].
  destruct (Z.of_nat j <=? max_option_string_index o)%Z eqn:C; [|reflexivity].
  rewrite loop_body_drop_low by exact Hj.
  pose proof (ok_loop_body arg_strings o p j st Hrange C) as Hb.
  destruct (loop_body arg_strings o p j st) as [[st' j']| | |]; cbn [bind];
    try reflexivity.
  cbn in Hb. apply IH. lia.
Qed.

Lemma parse_from_drop_low fuel j st :
  n <= j ->
  parse_from arg_strings (low ++ o) p fuel j st =
  parse_from arg_strings o p fuel j st.
Proof. intros Hj. unfold parse_from. rewrite loop_drop_low by exact Hj. reflexivity. Qed.

End DropLow.

(** *** Options typed one after the other *)

Lemma takes_one_match a tl :
  takes_one a = true -> _match_argument a (pat_A :: tl) = Return 1.
Proof. destruct a; try discriminate; reflexivity. Qed.

Lemma typed_action_inv o a args os :
  typed_action o = Some (a, args, os) ->
  takes_one a = true
  /\ String.eqb (fst o) "--" = false
  /\ ((exists value, snd o = Some value /\ args = [value]
                     /\ _parse_optional (fst o) = Return (Some (Some a, os, None))
                     /\ String.eqb value "--" = false
                     /\ _parse_optional value = Return None)
      \/ (exists e, snd o = None /\ args = [e]
                    /\ _parse_optional (fst o) = Return (Some (Some a, os, Some e)))).
Proof.
  unfold typed_action. intros H.
  assert (Hdd : String.eqb (fst o) "--" = false).
  { destruct (String.eqb_spec (fst o) "--") as [E|]; [|reflexivity].
    rewrite E in H. vm_compute in H. discriminate. }
  destruct (_parse_optional (fst o)) as [[[[[a'|] os'] e]|]| | |]; try discriminate.
  destruct (takes_one a') eqn:Ht; [|discriminate].
  destruct e as [e|], (snd o) as [value|]; try discriminate.
  - inversion H; subst. repeat split; auto. right. eauto.
  - unfold is_argument in H.
    destruct (String.eqb value "--") eqn:Hv; cbn [negb andb] in H; [discriminate|].
    destruct (_parse_optional value) as [[t|]| | |] eqn:Hp; try discriminate.
    inversion H; subst. repeat split; auto. left. exists value. auto 6.
Qed.

Lemma classify_typed l : forall tail osi p acts,
  typed_actions l = Some acts ->
  classify 0 tail = Return (osi, p) ->
  classify 0 (flat_map typed_strings l ++ tail) =
  Return (typed_indices l osi, typed_pattern l p).
Proof.
  induction l as [|o l IH]; intros tail osi p acts Ha Hc; [exact Hc|].
  cbn [typed_actions] in Ha.
  destruct (typed_action o) as [[[a args] os]|] eqn:Ho; [|discriminate].
  destruct (typed_actions l) as [ts|] eqn:Hl; [|discriminate].
  destruct (typed_action_inv o a args os Ho) as [_ [Hdd H]].
  specialize (IH tail osi p ts eq_refl Hc).
  destruct o as [tok v]. cbn [fst snd] in *.
  cbn [flat_map typed_strings fst snd typed_indices typed_pattern].
  destruct H as [[value [-> [_ [Hp [Hvd Hvp]]]]]|[e [-> [_ Hp]]]]; rewrite Hp.
  - change (typed_strings (tok, Some value)) with [tok; value].
    cbn [app length classify].
    rewrite Hdd, Hp, Hvd, Hvp. cbn [bind].
    rewrite (classify_shift _ 2 0), IH. reflexivity.
  - change (typed_strings (tok, None)) with [tok].
    cbn [app length classify].
    rewrite Hdd, Hp. cbn [bind].
    rewrite (classify_shift _ 1 0), IH. reflexivity.
Qed.

Lemma parse_from_turn arg_strings osi p fuel i st :
  (Z.of_nat i <=? max_option_string_index osi)%Z = true ->
  parse_from arg_strings osi p (S fuel) i st =
  ' (st', j) <- loop_body arg_strings osi p i st ;;
  parse_from arg_strings osi p fuel j st'.
Proof.
  intros H. unfold parse_from. cbn [loop]. rewrite H.
  destruct (loop_body arg_strings osi p i st) as [[st' j]| | |]; reflexivity.
Qed.

Lemma max_first_zero t osi :
  (Z.of_nat 0 <=? max_option_string_index ((0%nat, t) :: osi))%Z = true.
Proof. apply Z.leb_le. unfold max_option_string_index. cbn [map fst]. lia. Qed.

(** The turn of the main loop at an option that stands first. *)
Lemma loop_body_option_first arg_strings t osi p st :
  loop_body arg_strings ((0, t) :: osi) p 0 st =
  consume_optional arg_strings ((0, t) :: osi) p 0 st.
Proof.
  unfold loop_body. rewrite filter_ge_zero. cbn [map fst list_min].
  rewrite fold_min_zero. reflexivity.
Qed.

Lemma take_actions_one a args os st :
  take_actions [(a, args, os)] st = take_action a args st.
Proof. cbn [take_actions]. destruct (take_action a args st); reflexivity. Qed.

(** Options typed one after the other are acted on from left to right;
    the parse then goes on with what follows them. *)
Lemma parse_from_typed l : forall acts tail osi p fuel fuel' st,
  typed_actions l = Some acts ->
  classify 0 tail = Return (osi, p) ->
  length (flat_map typed_strings l ++ tail) <= fuel ->
  length tail <= fuel' ->
  parse_from (flat_map typed_strings l ++ tail) (typed_indices l osi)
    (typed_pattern l p) fuel 0 st =
  st' <- take_actions acts st ;; parse_from tail osi p fuel' 0 st'.
Proof.
  induction l as [|o l IH]; intros acts tail osi p fuel fuel' st Ha Hc Hf Hf'.
  - cbn in Ha. inversion Ha; subst acts. cbn [take_actions bind flat_map app
      typed_indices typed_pattern] in *.
    destruct (classify_in_range _ _ _ Hc) as [Hr _].
    pose proof (bound_in_range _ _ Hr).
    apply parse_from_fuel; [exact Hr | lia | lia].
  - cbn [typed_actions] in Ha.
    destruct (typed_action o) as [[[a args] os]|] eqn:Ho; [|discriminate].
    destruct (typed_actions l) as [ts|] eqn:Hl; [|discriminate].
    inversion Ha; subst acts; clear Ha.
    destruct (typed_action_inv o a args os Ho) as [Hone [Hdd H]].
    pose proof (classify_typed l tail osi p ts Hl Hc) as Hcl.
    destruct (classify_in_range _ _ _ Hcl) as [Hr Hlen].
    destruct o as [tok v]. cbn [fst snd] in *.
    cbn [flat_map typed_indices typed_pattern fst snd take_actions].
    cbn [flat_map] in Hf. rewrite bind_assoc.
    destruct H as [[value [-> [-> [Hp [Hvd Hvp]]]]]|[e [-> [-> Hp]]]]; rewrite Hp.
    + change (typed_strings (tok, Some value)) with [tok; value] in *.
      cbn [app length] in *.
      destruct fuel as [|f]; [lia|].
      rewrite parse_from_turn by apply max_first_zero.
      rewrite loop_body_option_first. unfold consume_optional.
      cbn [osi_get Nat.eqb]. unfold following. cbn [Nat.add skipn].
      rewrite (takes_one_match a _ Hone). cbn [bind firstn app].
      rewrite take_actions_one.
      destruct (take_action a [value] st) as [st'| | |]; cbn [bind]; try reflexivity.
      rewrite (parse_from_drop_low (tok :: value :: flat_map typed_strings l ++ tail)
                 [(0, (Some a, os, None))] (shift_indices 2 (typed_indices l osi))
                 (pat_O :: pat_A :: typed_pattern l p) 2).
      * etransitivity;
          [exact (parse_from_shift [tok; value] (flat_map typed_strings l ++ tail)
                    [pat_O; pat_A] (typed_pattern l p) (typed_indices l osi) 2
                    eq_refl eq_refl f 0 st')|].
        apply (IH ts tail osi p f fuel' st' eq_refl Hc); lia.
      * repeat constructor.
      * unfold in_range, shift_indices. rewrite map_map. cbn [fst length].
        rewrite Forall_map. unfold in_range in Hr. rewrite Forall_map in Hr.
        eapply Forall_impl; [|exact Hr]. cbn. intros; lia.
      * lia.
    + change (typed_strings (tok, None)) with [tok] in *.
      cbn [app length] in *.
      destruct fuel as [|f]; [lia|].
      rewrite parse_from_turn by apply max_first_zero.
      rewrite loop_body_option_first. unfold consume_optional.
      cbn [osi_get Nat.eqb].
      assert (He : forall x y, with_explicit x y 0 a os e [] = Return ([(a, [e], os)], 1)).
      { intros x y. destruct e; cbn [with_explicit];
          rewrite (takes_one_match a _ Hone); reflexivity. }
      rewrite He. cbn [bind]. rewrite take_actions_one.
      destruct (take_action a [e] st) as [st'| | |]; cbn [bind]; try reflexivity.
      rewrite (parse_from_drop_low (tok :: flat_map typed_strings l ++ tail)
                 [(0, (Some a, os, Some e))] (shift_indices 1 (typed_indices l osi))
                 (pat_O :: typed_pattern l p) 1).
      * etransitivity;
          [exact (parse_from_shift [tok] (flat_map typed_strings l ++ tail)
                    [pat_O] (typed_pattern l p) (typed_indices l osi) 1
                    eq_refl eq_refl f 0 st')|].
        apply (IH ts tail osi p f fuel' st' eq_refl Hc); lia.
      * repeat constructor.
      * unfold in_range, shift_indices. rewrite map_map. cbn [fst length].
        rewrite Forall_map. unfold in_range in Hr. rewrite Forall_map in Hr.
        eapply Forall_impl; [|exact Hr]. cbn. intros; lia.
      * lia.
Qed.

(** *** Attributes set one after the other *)

Lemma setattr_attributes ns k v :
  In k (attributes ns) -> attributes (setattr ns k v) = attributes ns.
Proof.
  unfold attributes. induction ns as [|[k' v'] ns IH]; intros H; [destruct H|].
  cbn [setattr]. destruct (String.eqb_spec k' k) as [E|E]; [reflexivity|].
  cbn [map fst]. f_equal. apply IH. destruct H as [H|H]; [contradiction | exact H].
Qed.

Lemma setattr_setattr ns k v v' :
  setattr (setattr ns k v) k v' = setattr ns k v'.
Proof.
  induction ns as [|[k' x] ns IH]; cbn [setattr].
  - rewrite String.eqb_refl. reflexivity.
  - destruct (String.eqb k' k) eqn:E; cbn [setattr]; rewrite E; [reflexivity|].
    rewrite IH. reflexivity.
Qed.

Lemma setattr_comm ns k1 v1 k2 v2 :
  k1 <> k2 -> In k1 (attributes ns) ->
  setattr (setattr ns k1 v1) k2 v2 = setattr (setattr ns k2 v2) k1 v1.
Proof.
  intros Hk. unfold attributes.
  induction ns as [|[k x] ns IH]; intros H; [destruct H|].
  cbn [setattr].
  destruct (String.eqb_spec k k1) as [E1|E1], (String.eqb_spec k k2) as [E2|E2];
    try congruence; cbn [setattr].
  - subst k. destruct (String.eqb_spec k1 k2); [congruence|].
    rewrite String.eqb_refl. reflexivity.
  - subst k. destruct (String.eqb_spec k2 k1); [congruence|].
    rewrite String.eqb_refl. reflexivity.
  - destruct (String.eqb_spec k k1); [congruence|].
    destruct (String.eqb_spec k k2); [congruence|].
    f_equal. apply IH. destruct H as [H|H]; [contradiction | exact H].
Qed.

Lemma getattr_setattr_other ns k k' v :
  k <> k' -> getattr (setattr ns k v) k' = getattr ns k'.
Proof.
  intros Hk. unfold getattr.
  induction ns as [|[k0 x] ns IH]; cbn [setattr dict_get].
  - destruct (String.eqb_spec k k'); [congruence | reflexivity].
  - destruct (String.eqb_spec k0 k) as [E|E]; cbn [dict_get].
    + subst k0. destruct (String.eqb_spec k k'); [congruence | reflexivity].
    + rewrite IH. reflexivity.
Qed.

Lemma getattr_setattr_same ns k v : getattr (setattr ns k v) k = Some v.
Proof.
  unfold getattr. induction ns as [|[k0 x] ns IH]; cbn [setattr dict_get].
  - rewrite String.eqb_refl. reflexivity.
  - destruct (String.eqb k0 k) eqn:E; cbn [dict_get]; rewrite E; [reflexivity|].
    exact IH.
Qed.

Lemma takes_one_dest a :
  takes_one a = true -> In (dest a) parsed_attributes /\ dest a <> "links".
Proof.
  destruct a; try discriminate; intros _; (split; [cbn; tauto | discriminate]).
Qed.

Lemma takes_one_call a ns v :
  takes_one a = true -> call a ns v = Return (setattr ns (dest a) v).
Proof. destruct a; try discriminate; reflexivity. Qed.

Lemma dest_injective a b :
  takes_one a = true -> takes_one b = true -> dest a = dest b -> a = b.
Proof. destruct a, b; try discriminate; reflexivity. Qed.

Lemma typed_actions_takes_one l : forall acts,
  typed_actions l = Some acts ->
  Forall (fun t : action_tuple => takes_one (fst (fst t)) = true) acts.
Proof.
  induction l as [|o l IH]; intros acts H; cbn [typed_actions] in H.
  - inversion H. constructor.
  - destruct (typed_action o) as [[[a args] os]|] eqn:Ho; [|discriminate].
    destruct (typed_actions l) as [ts|]; [|discriminate].
    inversion H; subst. constructor; [|apply IH; reflexivity].
    apply (typed_action_inv o a args os Ho).
Qed.

Lemma take_actions_store acts : forall st,
  Forall (fun t : action_tuple => takes_one (fst (fst t)) = true) acts ->
  take_actions acts st =
  ns <- store_all acts (namespace st) ;;
  Return {| namespace := ns;
            seen_actions := rev (map (fun t : action_tuple => fst (fst t)) acts)
                            ++ seen_actions st;
            positionals := positionals st;
            extras := extras st |}.
Proof.
  induction acts as [|[[a args] os] acts IH]; intros st H.
  - destruct st; reflexivity.
  - inversion H as [|? ? Ha Hr]; subst. cbn [fst] in Ha.
    cbn [take_actions store_all map rev fst]. unfold take_action.
    rewrite !bind_assoc.
    destruct (_get_values a args) as [v| | |]; cbn [bind]; try reflexivity.
    rewrite (takes_one_call a _ v Ha). cbn [bind]. rewrite (IH _ Hr).
    cbn [namespace seen_actions positionals extras].
    rewrite <- app_assoc. reflexivity.
Qed.

Lemma store_all_attributes acts : forall ns ns',
  Forall (fun t : action_tuple => takes_one (fst (fst t)) = true) acts ->
  attributes ns = parsed_attributes ->
  store_all acts ns = Return ns' ->
  attributes ns' = parsed_attributes.
Proof.
  induction acts as [|[[a args] os] acts IH]; intros ns ns' H Hns Hs.
  - cbn in Hs. inversion Hs; subst. exact Hns.
  - inversion H as [|? ? Ha Hr]; subst. cbn [fst] in Ha. cbn [store_all] in Hs.
    destruct (_get_values a args) as [v| | |]; cbn [bind] in Hs; try discriminate.
    apply (IH _ _ Hr) in Hs; [exact Hs|].
    rewrite setattr_attributes; [exact Hns|].
    rewrite Hns. apply (takes_one_dest a Ha).
Qed.

(** *** The end of the parse *)

Lemma attributes_parsed ns :
  attributes ns = parsed_attributes ->
  exists x v q t,
    ns = [("links", x); ("verbosity", v); ("quality", q); ("threads", t)].
Proof.
  unfold attributes, parsed_attributes. intros H.
  destruct ns as [|[k1 x] [|[k2 v] [|[k3 q] [|[k4 t] [|? ?]]]]]; try discriminate.
  cbn in H. inversion H; subst. eauto.
Qed.

Lemma pyval_eqb_str s q : pyval_eqb (PyStr s) q = true -> q = PyStr s.
Proof.
  destruct q as [|s'| |]; cbn [pyval_eqb]; try discriminate.
  intros H. apply String.eqb_eq in H. congruence.
Qed.

Lemma setattr_same ns k v : getattr ns k = Some v -> setattr ns k v = ns.
Proof.
  unfold getattr. induction ns as [|[k' x] ns IH]; cbn [dict_get setattr];
    [discriminate|].
  destruct (String.eqb k' k); intros H; [congruence|].
  rewrite (IH H). reflexivity.
Qed.

(** The check of the required actions converts a default that is a
    string and is still in the namespace; on this parser the conversion
    gives the string back, so the namespace is left as it is. *)
Lemma check_required_names actions : forall seen req ns,
  check_required actions seen req ns =
  Return (req ++ map _get_action_name
                   (filter (fun a => negb (existsb (Action_eqb a) seen) && required a)
                      actions),
          ns).
Proof.
  induction actions as [|a actions IH]; intros seen req ns;
    cbn [check_required filter map].
  - rewrite app_nil_r. reflexivity.
  - destruct (existsb (Action_eqb a) seen); cbn [negb andb]; [apply IH|].
    destruct (required a) eqn:Hr; cbn [map].
    + rewrite IH, <- app_assoc. reflexivity.
    + destruct (default a) as [|d| |] eqn:Hd; try apply IH.
      destruct (getattr ns (dest a)) as [v|] eqn:Hg; try apply IH.
      destruct (pyval_eqb (PyStr d) v) eqn:E; try apply IH.
      apply pyval_eqb_str in E. subst v.
      assert (Hv : _get_value a d = Return (PyStr d))
        by (destruct a; try discriminate; reflexivity).
      rewrite Hv. cbn [bind]. rewrite (setattr_same _ _ _ Hg). apply IH.
Qed.

Lemma check_required_parsed seen ns :
  check_required _actions seen [] ns =
  Return (if existsb (Action_eqb links_action) seen then [] else ["links"], ns).
Proof.
  rewrite check_required_names. unfold _actions.
  cbn [filter required andb app map]. rewrite !andb_false_r, andb_true_r.
  destruct (existsb (Action_eqb links_action) seen); reflexivity.
Qed.

Lemma end_of_parse_parsed more st :
  existsb (Action_eqb links_action) (seen_actions st) = true ->
  end_of_parse more st = Return (namespace st, extras st ++ more).
Proof.
  intros Hs. unfold end_of_parse. rewrite check_required_parsed, Hs.
  reflexivity.
Qed.

(** Nothing but strings that no action takes is left. *)
Lemma parse_from_nothing_left more fuel st :
  Forall (fun s => plain s = true) more ->
  positionals st = [] ->
  parse_from more [] (repeat pat_A (length more)) fuel 0 st = end_of_parse more st.
Proof.
  intros Hm Hp. unfold parse_from. rewrite loop_no_options. cbn [bind].
  unfold consume_positionals. rewrite Hp.
  cbn [_match_arguments_partial length match_partial_upto combine take_positionals
       bind skipn].
  reflexivity.
Qed.

Lemma classify_plain more :
  Forall (fun s => plain s = true) more ->
  classify 0 more = Return ([], repeat pat_A (length more)).
Proof.
  intros H. pose proof (classify_plain_app more 0 [] H) as E.
  rewrite app_nil_r in E. rewrite E. cbn. rewrite app_nil_r. reflexivity.
Qed.

Lemma typed_pattern_ends_group l p : l <> [] -> ends_group (typed_pattern l p).
Proof. destruct l; [congruence | reflexivity]. Qed.

Lemma existsb_links_seen l seen :
  existsb (Action_eqb links_action) seen = true ->
  existsb (Action_eqb links_action) (l ++ seen) = true.
Proof. intros H. rewrite existsb_app, H. apply orb_true_r. Qed.

(** Links, then options, then strings that no option takes. *)
Lemma main_links_typed_more links l acts more :
  links_ok links ->
  typed_actions l = Some acts ->
  Forall (fun s => plain s = true) more ->
  l <> [] \/ more = [] ->
  main (links ++ flat_map typed_strings l ++ more) =
  finish (ns <- store_all acts (namespace (links_state links)) ;;
          Return (ns, more)).
Proof.
  intros [Hne Hplain] Ha Hm Hl.
  pose proof (classify_typed l more _ _ acts Ha (classify_plain more Hm)) as Hc.
  rewrite (main_links_then links _ _ _ Hne Hplain Hc).
  2:{ destruct Hl as [Hl|Hl]; [apply typed_pattern_ends_group; exact Hl|].
      subst more. destruct l; reflexivity. }
  f_equal.
  rewrite (parse_from_typed l acts more _ _ _ (length more) (links_state links) Ha
             (classify_plain more Hm) (le_n _) (le_n _)).
  rewrite (take_actions_store acts _ (typed_actions_takes_one l acts Ha)).
  rewrite bind_assoc.
  destruct (store_all acts (namespace (links_state links))) as [ns| | |] eqn:Hs;
    cbn [bind]; try reflexivity.
  rewrite parse_from_nothing_left; [|exact Hm|reflexivity].
  apply end_of_parse_parsed; cbn [seen_actions].
  apply existsb_links_seen. reflexivity.
Qed.

(** Options, then the links. *)
Lemma main_typed_links l acts links :
  links_ok links ->
  typed_actions l = Some acts ->
  main (flat_map typed_strings l ++ links) =
  finish (ns <- store_all acts default_namespace ;;
          Return (setattr ns "links" (PyList (map PyStr links)), [])).
Proof.
  intros [Hne Hplain] Ha. rewrite main_unfold. f_equal.
  unfold _parse_known_args_fuel.
  rewrite (classify_typed l links _ _ acts Ha (classify_plain links Hplain)).
  cbn [bind].
  rewrite (parse_from_typed l acts links _ _ _ (length links)
             (initial_state default_namespace) Ha
             (classify_plain links Hplain) (le_n _) (le_n _)).
  rewrite (take_actions_store acts _ (typed_actions_takes_one l acts Ha)).
  rewrite bind_assoc.
  cbn [initial_state namespace seen_actions positionals extras].
  destruct (store_all acts default_namespace) as [ns| | |] eqn:Hs;
    cbn [bind]; try reflexivity.
  unfold parse_from. rewrite loop_no_options. cbn [bind].
  destruct links as [|x links]; [congruence|].
  rewrite (consume_positionals_links _ _ 0 _ (length links) [] (x :: links));
    try reflexivity; auto.
  - cbn [bind with_links namespace seen_actions extras].
    rewrite check_required_parsed.
    cbn [existsb Action_eqb orb bind]. rewrite skipn_all2 by (cbn; lia).
    reflexivity.
  - cbn [skipn length]. rewrite app_nil_r. reflexivity.
  - cbn [skipn]. change (S (length links)) with (length (x :: links)).
    apply firstn_all.
Qed.

(** *** What the options store *)

(** [script] on a namespace with the attributes of the parser. *)
Lemma script_parsed ns :
  attributes ns = parsed_attributes ->
  exists out, script (Return ns) = Completed ns out.
Proof.
  intros H. destruct (attributes_parsed ns H) as [x [v [q [t ->]]]].
  unfold script. cbn [getattr dict_get String.eqb Ascii.eqb Bool.eqb].
  destruct (truthy v); eauto.
Qed.

Lemma finish_return ns :
  finish (Return (ns, [])) = script (Return ns).
Proof. reflexivity. Qed.

Lemma finish_more ns x more :
  finish (Return (ns, x :: more)) =
  SystemExit 2 [] [format_usage;
                   error_line (Build_ArgumentError None
                                 (unrecognized_arguments (x :: more)))].
Proof. reflexivity. Qed.

Lemma links_state_attributes links :
  attributes (namespace (links_state links)) = parsed_attributes.
Proof. reflexivity. Qed.

Lemma main_links_typed links l acts :
  links_ok links ->
  typed_actions l = Some acts ->
  main (links ++ flat_map typed_strings l) =
  finish (ns <- store_all acts (namespace (links_state links)) ;; Return (ns, [])).
Proof.
  intros Hl Ha.
  rewrite <- (main_links_typed_more links l acts [] Hl Ha (Forall_nil _)
                (or_intror eq_refl)).
  rewrite app_nil_r. reflexivity.
Qed.

Lemma store_all_ext acts : forall acts' ns,
  map fst acts = map fst acts' -> store_all acts ns = store_all acts' ns.
Proof.
  induction acts as [|[[a args] os] acts IH]; intros [|[[a' args'] os'] acts'] ns H;
    try discriminate; [reflexivity|].
  cbn [map fst] in H. inversion H; subst. cbn [store_all].
  destruct (_get_values a' args'); cbn [bind]; try reflexivity.
  apply IH. assumption.
Qed.

Lemma store_all_links acts : forall ns value,
  Forall (fun t : action_tuple => takes_one (fst (fst t)) = true) acts ->
  In "links" (attributes ns) ->
  store_all acts (setattr ns "links" value) =
  ns' <- store_all acts ns ;; Return (setattr ns' "links" value).
Proof.
  induction acts as [|[[a args] os] acts IH]; intros ns value H Hin;
    [reflexivity|].
  inversion H as [|? ? Ha Hr]; subst. cbn [fst] in Ha. cbn [store_all].
  rewrite bind_assoc.
  destruct (_get_values a args) as [v| | |]; cbn [bind]; try reflexivity.
  destruct (takes_one_dest a Ha) as [_ Hd].
  rewrite setattr_comm by (auto || congruence).
  apply IH; [exact Hr|].
  unfold attributes in *. clear - Hin.
  induction ns as [|[k x] ns IH]; [destruct Hin|].
  cbn [setattr]. destruct (String.eqb k (dest a)); cbn [map fst] in *;
    [exact Hin|]. destruct Hin as [Hin|Hin]; [left; exact Hin | right; auto].
Qed.

(** Setting an attribute that a later option sets again changes
    nothing. *)
Lemma store_all_overwritten acts : forall a v ns,
  Forall (fun t : action_tuple => takes_one (fst (fst t)) = true) acts ->
  takes_one a = true ->
  In a (map action_of acts) ->
  attributes ns = parsed_attributes ->
  store_all acts (setattr ns (dest a) v) = store_all acts ns.
Proof.
  induction acts as [|[[a' args] os] acts IH]; intros a v ns H Ha Hin Hns;
    [destruct Hin|].
  inversion H as [|? ? Ha' Hr]; subst. cbn [fst] in Ha'. cbn [store_all].
  destruct (_get_values a' args) as [v'| | |]; cbn [bind]; try reflexivity.
  destruct (String.eqb_spec (dest a) (dest a')) as [E|E].
  - rewrite E, setattr_setattr. reflexivity.
  - destruct Hin as [Hin|Hin]; [cbn in Hin; congruence|].
    rewrite setattr_comm; [|exact E|].
    + apply IH; auto. rewrite setattr_attributes; [exact Hns|].
      rewrite Hns. apply (takes_one_dest a' Ha').
    + rewrite Hns. apply (takes_one_dest a Ha).
Qed.

Lemma store_all_permutation acts acts' :
  Permutation acts acts' ->
  forall ns ns',
  Forall (fun t : action_tuple => takes_one (fst (fst t)) = true) acts ->
  NoDup (map action_of acts) ->
  attributes ns = parsed_attributes ->
  store_all acts ns = Return ns' ->
  store_all acts' ns = Return ns'.
Proof.
  induction 1 as [|[[a args] os] l l' Hp IH|[[a args] os] [[b args'] os'] l
                  |l l' l'' Hp1 IH1 Hp2 IH2];
    intros ns ns' Hone Hnd Hns Hs.
  - exact Hs.
  - inversion Hone as [|? ? Ha Hr]; subst. cbn [fst] in Ha.
    inversion Hnd as [|? ? _ Hnd']; subst.
    cbn [store_all] in *.
    destruct (_get_values a args) as [v| | |]; cbn [bind] in *; try discriminate.
    apply IH; auto. rewrite setattr_attributes; [exact Hns|].
    rewrite Hns. apply (takes_one_dest a Ha).
  - inversion Hone as [|? ? Hb Hr]; subst. inversion Hr as [|? ? Ha Hr']; subst.
    cbn [fst] in Ha, Hb.
    inversion Hnd as [|? ? Hnot _]; subst.
    cbn [store_all] in *.
    destruct (_get_values b args') as [vb| | |]; cbn [bind] in *; try discriminate.
    destruct (_get_values a args) as [va| | |]; cbn [bind] in *; try discriminate.
    rewrite (setattr_comm ns (dest a) va (dest b) vb); [exact Hs| |].
    + intros E. apply Hnot. left. symmetry.
      apply dest_injective; auto.
    + rewrite Hns. apply (takes_one_dest a Ha).
  - assert (Hone' : Forall (fun t : action_tuple => takes_one (fst (fst t)) = true) l')
      by (eapply Permutation_Forall; eassumption).
    assert (Hnd' : NoDup (map action_of l'))
      by (eapply Permutation_NoDup; [apply Permutation_map; exact Hp1 | exact Hnd]).
    exact (IH2 ns ns' Hone' Hnd' Hns (IH1 ns ns' Hone Hnd Hns Hs)).
Qed.

Lemma typed_actions_map l : forall acts,
  typed_actions l = Some acts <-> map typed_action l = map Some acts.
Proof.
  induction l as [|o l IH]; intros acts; cbn [typed_actions map].
  - split; intros H.
    + inversion H. reflexivity.
    + destruct acts; [reflexivity | discriminate].
  - destruct (typed_action o) as [t|].
    + destruct (typed_actions l) as [ts|].
      * split; intros H.
        -- inversion H; subst. cbn [map]. f_equal. apply IH. reflexivity.
        -- destruct acts as [|t' acts]; [discriminate|]. cbn [map] in H.
           inversion H; subst. f_equal. f_equal.
           apply (proj2 (IH acts)) in H2. congruence.
      * split; intros H; [discriminate|].
        destruct acts as [|t' acts]; [discriminate|]. cbn [map] in H.
        inversion H; subst. apply (proj2 (IH acts)) in H2. discriminate.
    + split; intros H; [destruct (typed_actions l); discriminate|].
      destruct acts; discriminate.
Qed.

Lemma typed_actions_permutation l l' acts :
  Permutation l l' ->
  typed_actions l = Some acts ->
  exists acts', typed_actions l' = Some acts' /\ Permutation acts acts'.
Proof.
  intros Hp Ha. apply typed_actions_map in Ha.
  pose proof (Permutation_map typed_action Hp) as Hm. rewrite Ha in Hm.
  apply Permutation_sym in Hm.
  destruct (Permutation_map_inv _ _ Hm) as [acts' [E Hp']].
  exists acts'. split; [apply typed_actions_map; exact E | exact Hp'].
Qed.

Lemma typed_actions_app l : forall l' acts acts',
  typed_actions l = Some acts -> typed_actions l' = Some acts' ->
  typed_actions (l ++ l') = Some (acts ++ acts').
Proof.
  intros l' acts acts' H H'. apply typed_actions_map. rewrite !map_app.
  apply typed_actions_map in H, H'. congruence.
Qed.

Lemma finish_completed r args out :
  finish r = Completed args out -> exists ns, r = Return (ns, []).
Proof.
  unfold finish. destruct r as [[ns [|x more]]|e| |]; cbn; try discriminate.
  eauto.
Qed.

(** *** Spelling, place and order of the options *)

(** X4. How an option is spelled does not matter: the short or the long
    option string, an abbreviation of the long one, the value as the next
    string, after [=], or joined to the short option string. Two command
    lines whose options name the same actions with the same values, in the
    same order, end the same way, the options after the links or before
    them. *)
Theorem spelling_irrelevant links l l' acts acts' :
  links_ok links ->
  typed_actions l = Some acts ->
  typed_actions l' = Some acts' ->
  map fst acts = map fst acts' ->
  main (links ++ flat_map typed_strings l) =
  main (links ++ flat_map typed_strings l')
  /\ main (flat_map typed_strings l ++ links) =
     main (flat_map typed_strings l' ++ links).
Proof.
  intros Hl Ha Ha' E. split.
  - rewrite (main_links_typed links l acts Hl Ha),
            (main_links_typed links l' acts' Hl Ha').
    rewrite (store_all_ext acts acts' _ E). reflexivity.
  - rewrite (main_typed_links l acts links Hl Ha),
            (main_typed_links l' acts' links Hl Ha').
    rewrite (store_all_ext acts acts' _ E). reflexivity.
Qed.

Lemma spelling_irrelevant_witness :
  main (["a"; "b"] ++ ["-q"; "480p"; "--threads=4"; "-vx"]) =
  main (["a"; "b"] ++ ["--quality=480p"; "--thr"; "4"; "--verb"; "x"])
  /\ main (["-q"; "480p"; "--threads=4"; "-vx"] ++ ["a"; "b"]) =
     main (["--quality=480p"; "--thr"; "4"; "--verb"; "x"] ++ ["a"; "b"]).
Proof.
  apply (spelling_irrelevant ["a"; "b"]
           [("-q", Some "480p"); ("--threads=4", None); ("-vx", None)]
           [("--quality=480p", None); ("--thr", Some "4"); ("--verb", Some "x")]
           [(quality_action, ["480p"], "-q"); (threads_action, ["4"], "--threads");
            (verbosity_action, ["x"], "-v")]
           [(quality_action, ["480p"], "--quality"); (threads_action, ["4"], "--threads");
            (verbosity_action, ["x"], "--verbosity")]).
  - split; [discriminate | repeat constructor].
  - reflexivity.
  - reflexivity.
  - reflexivity.
Defined.

(** X5. Options may stand before the links or after them: the run ends
    the same way, whether the options are accepted or not. *)
Theorem options_before_or_after_links links l acts :
  links_ok links ->
  typed_actions l = Some acts ->
  main (flat_map typed_strings l ++ links) =
  main (links ++ flat_map typed_strings l).
Proof.
  intros Hl Ha.
  rewrite (main_links_typed links l acts Hl Ha),
          (main_typed_links l acts links Hl Ha).
  change (namespace (links_state links))
    with (setattr default_namespace "links" (PyList (map PyStr links))).
  rewrite store_all_links;
    [|apply (typed_actions_takes_one l acts Ha) | cbn; tauto].
  rewrite bind_assoc. reflexivity.
Qed.

Lemma options_before_or_after_links_witness :
  main (["-t"; "8"; "--quality=1080p"] ++ ["a"; "b"]) =
  main (["a"; "b"] ++ ["-t"; "8"; "--quality=1080p"]).
Proof.
  apply (options_before_or_after_links ["a"; "b"]
           [("-t", Some "8"); ("--quality=1080p", None)]
           [(threads_action, ["8"], "-t"); (quality_action, ["1080p"], "--quality")]).
  - split; [discriminate | repeat constructor].
  - reflexivity.
Defined.

(** X6. Strings after the options are not links. With links, then
    options, then further strings that are no options, a run that would
    complete without the further strings ends with the error
    [unrecognized arguments] on them and status 2; a run that would fail
    without them fails the same way. *)
Theorem strings_after_options_refused links l acts more :
  links_ok links ->
  typed_actions l = Some acts ->
  l <> [] ->
  more <> [] ->
  Forall (fun s => plain s = true) more ->
  main (links ++ flat_map typed_strings l ++ more) =
  match main (links ++ flat_map typed_strings l) with
  | Completed _ _ =>
      SystemExit 2 []
        [format_usage;
         error_line (Build_ArgumentError None (unrecognized_arguments more))]
  | o => o
  end.
Proof.
  intros Hl Ha Hne Hm Hp.
  rewrite (main_links_typed links l acts Hl Ha).
  rewrite (main_links_typed_more links l acts more Hl Ha Hp (or_introl Hne)).
  destruct (store_all acts (namespace (links_state links))) as [ns| | |] eqn:Hs;
    cbn [bind]; try reflexivity.
  destruct more as [|x more]; [congruence|]. rewrite finish_more, finish_return.
  destruct (script_parsed ns) as [out ->]; [|reflexivity].
  eapply store_all_attributes;
    [apply (typed_actions_takes_one l acts Ha) | | exact Hs]. reflexivity.
Qed.

Lemma strings_after_options_refused_witness :
  main (["a"] ++ ["-t"; "4"] ++ ["b"]) =
  SystemExit 2 []
    [format_usage;
     error_line (Build_ArgumentError None (unrecognized_arguments ["b"]))].
Proof.
  apply (strings_after_options_refused ["a"] [("-t", Some "4")]
           [(threads_action, ["4"], "-t")] ["b"]).
  - split; [discriminate | repeat constructor].
  - reflexivity.
  - discriminate.
  - discriminate.
  - repeat constructor.
Defined.

(** X7. Options for different actions may be typed in any order: when a
    command line of links and options completes, every reordering of its
    options completes with the same namespace and the same output. *)
Theorem option_order_irrelevant links l l' acts args out :
  links_ok links ->
  typed_actions l = Some acts ->
  NoDup (map action_of acts) ->
  Permutation l l' ->
  main (links ++ flat_map typed_strings l) = Completed args out ->
  main (links ++ flat_map typed_strings l') = Completed args out.
Proof.
  intros Hl Ha Hnd Hp.
  destruct (typed_actions_permutation l l' acts Hp Ha) as [acts' [Ha' Hp']].
  rewrite (main_links_typed links l acts Hl Ha),
          (main_links_typed links l' acts' Hl Ha').
  destruct (store_all acts (namespace (links_state links))) as [ns| | |] eqn:Hs;
    cbn [bind]; try discriminate.
  rewrite (store_all_permutation acts acts' Hp' _ ns
             (typed_actions_takes_one l acts Ha) Hnd
             (links_state_attributes links) Hs).
  cbn [bind]. exact (fun H => H).
Qed.

Lemma option_order_irrelevant_witness :
  main (["a"] ++ ["-t"; "4"; "-v"; "x"; "-q"; "480p"]) =
    Completed (parsed ["a"] (PyStr "x") (PyStr "480p") (PyInt 4))
      (summary (PyStr "480p") (PyInt 4)).
Proof.
  apply (option_order_irrelevant ["a"]
           [("-v", Some "x"); ("-q", Some "480p"); ("-t", Some "4")]
           [("-t", Some "4"); ("-v", Some "x"); ("-q", Some "480p")]
           [(verbosity_action, ["x"], "-v"); (quality_action, ["480p"], "-q");
            (threads_action, ["4"], "-t")]).
  - split; [discriminate | repeat constructor].
  - reflexivity.
  - repeat constructor; cbn; intuition discriminate.
  - apply Permutation_sym.
    apply (Permutation_cons_app [("-v", Some "x"); ("-q", Some "480p")] []).
    rewrite app_nil_r. apply Permutation_refl.
  - vm_compute. reflexivity.
Defined.

(** *** Repeated options and the values of [-t] *)

(** X8. An option typed again: when a first option is accepted on its
    own and a later option names the same action, the run ends as if the
    first option were not typed. The later value is stored, the earlier one
    only has to be accepted. *)
Theorem repeated_option_last_wins links o a args os l acts ns out :
  links_ok links ->
  typed_action o = Some (a, args, os) ->
  typed_actions l = Some acts ->
  In a (map action_of acts) ->
  main (links ++ typed_strings o) = Completed ns out ->
  main (links ++ typed_strings o ++ flat_map typed_strings l) =
  main (links ++ flat_map typed_strings l).
Proof.
  intros Hl Ho Ha Hin Hfirst.
  assert (Ho1 : typed_actions [o] = Some [(a, args, os)]).
  { cbn [typed_actions]. rewrite Ho. reflexivity. }
  pose proof (main_links_typed links [o] _ Hl Ho1) as H1.
  cbn [flat_map] in H1. rewrite app_nil_r in H1. rewrite H1 in Hfirst.
  apply finish_completed in Hfirst. destruct Hfirst as [ns1 Hfirst].
  cbn [store_all] in Hfirst.
  destruct (_get_values a args) as [v| | |] eqn:Hv; cbn [bind] in Hfirst;
    try discriminate.
  pose proof (main_links_typed links (o :: l) _ Hl
                (typed_actions_app [o] l _ _ Ho1 Ha)) as H2.
  cbn [flat_map app] in H2. rewrite H2.
  rewrite (main_links_typed links l acts Hl Ha).
  cbn [store_all]. rewrite Hv. cbn [bind].
  rewrite store_all_overwritten; auto.
  - apply (typed_actions_takes_one l acts Ha).
  - apply (typed_action_inv o a args os Ho).
Qed.

Lemma repeated_option_last_wins_witness :
  main (["a"] ++ ["-q"; "480p"] ++ ["-t"; "2"; "--quality=1080p"]) =
  main (["a"] ++ ["-t"; "2"; "--quality=1080p"]).
Proof.
  apply (repeated_option_last_wins ["a"] ("-q", Some "480p") quality_action
           ["480p"] "-q" [("-t", Some "2"); ("--quality=1080p", None)]
           [(threads_action, ["2"], "-t"); (quality_action, ["1080p"], "--quality")]
           (parsed ["a"] PyNone (PyStr "480p") (PyInt 1)) []).
  - split; [discriminate | repeat constructor].
  - reflexivity.
  - reflexivity.
  - cbn. tauto.
  - vm_compute. reflexivity.
Defined.

Lemma is_argument_inv s :
  is_argument s = true ->
  String.eqb s "--" = false /\ _parse_optional s = Return None.
Proof.
  unfold is_argument. destruct (String.eqb s "--"); [discriminate|].
  destruct (_parse_optional s) as [[t|]| | |]; try discriminate. auto.
Qed.

Lemma plain_is_argument s : plain s = true -> is_argument s = true.
Proof.
  intros H. unfold is_argument.
  rewrite (plain_not_double_dash s H), (plain_parse_optional s H). reflexivity.
Qed.

(** X9. [-t s] after the links, for every string [s] that the parser
    takes for an argument: [int(s)] decides. An integer from 1 to 31
    is stored; another integer is an invalid choice; a string that [int]
    refuses is an invalid int value. *)
Theorem threads_by_int links s :
  links_ok links ->
  is_argument s = true ->
  main (links ++ ["-t"; s]) =
  match py_int s with
  | Some z =>
      if ((1 <=? z) && (z <? 32))%Z
      then Completed (parsed links PyNone (PyStr "720p") (PyInt z)) []
      else SystemExit 2 []
             [format_usage;
              error_line (Build_ArgumentError (Some threads_action)
                            (invalid_choice (PyInt z) (choices threads_action)))]
  | None =>
      SystemExit 2 []
        [format_usage;
         error_line (Build_ArgumentError (Some threads_action)
                       (invalid_value "int" s))]
  end.
Proof.
  intros Hl Hs.
  assert (Ha : typed_actions [("-t", Some s)] = Some [(threads_action, [s], "-t")]).
  { cbn [typed_actions]. unfold typed_action. cbn [fst snd].
    change (_parse_optional "-t")
      with (Return (T := option option_tuple) (Some (Some threads_action, "-t", None))).
    cbn [takes_one nargs option_strings]. rewrite Hs. reflexivity. }
  pose proof (main_links_typed links _ _ Hl Ha) as H.
  cbn [flat_map typed_strings fst snd app] in H. rewrite H. clear H.
  cbn [store_all]. destruct (is_argument_inv s Hs) as [Hdd _].
  rewrite (get_values_one threads_action s eq_refl Hdd).
  unfold _get_value. cbn [type]. destruct (py_int s) as [z|]; [|reflexivity].
  cbn [bind]. unfold _check_value. cbn [choices in_choices].
  destruct ((1 <=? z)%Z && (z <? 32)%Z); reflexivity.
Qed.

Lemma threads_by_int_witness :
  main (["a"] ++ ["-t"; " +1_0 "]) =
    Completed (parsed ["a"] PyNone (PyStr "720p") (PyInt 10)) []
  /\ main (["a"] ++ ["-t"; "-5"]) =
     SystemExit 2 []
       [format_usage;
        error_line (Build_ArgumentError (Some threads_action)
                      (invalid_choice (PyInt (-5)) (choices threads_action)))]
  /\ main (["a"] ++ ["-t"; "4.0"]) =
     SystemExit 2 []
       [format_usage;
        error_line (Build_ArgumentError (Some threads_action)
                      (invalid_value "int" "4.0"))].
Proof.
  assert (Hl : links_ok ["a"]) by (split; [discriminate | repeat constructor]).
  split; [|split].
  - apply (threads_by_int ["a"] " +1_0 " Hl). reflexivity.
  - apply (threads_by_int ["a"] "-5" Hl). reflexivity.
  - apply (threads_by_int ["a"] "4.0" Hl). reflexivity.
Defined.

(** *** What closes the command line *)

(** Links, then options, then anything that is classified. *)
Lemma main_links_typed_then links l acts tail osi p :
  links_ok links ->
  typed_actions l = Some acts ->
  classify 0 tail = Return (osi, p) ->
  l <> [] \/ ends_group p ->
  main (links ++ flat_map typed_strings l ++ tail) =
  finish (ns <- store_all acts (namespace (links_state links)) ;;
          parse_from tail osi p (length tail) 0
            {| namespace := ns;
               seen_actions := rev (map (fun t : action_tuple => fst (fst t)) acts)
                               ++ [links_action];
               positionals := [];
               extras := [] |}).
Proof.
  intros [Hne Hplain] Ha Hc Hl.
  pose proof (classify_typed l tail _ _ acts Ha Hc) as Hcl.
  rewrite (main_links_then links _ _ _ Hne Hplain Hcl).
  2:{ destruct Hl as [Hl|Hl]; [apply typed_pattern_ends_group; exact Hl|].
      destruct l; [exact Hl | reflexivity]. }
  f_equal.
  rewrite (parse_from_typed l acts tail _ _ _ (length tail) (links_state links) Ha
             Hc (le_n _) (le_n _)).
  rewrite (take_actions_store acts _ (typed_actions_takes_one l acts Ha)).
  rewrite bind_assoc. reflexivity.
Qed.

Lemma option_string_parse flag a :
  In flag (option_strings a) ->
  _parse_optional flag = Return (Some (Some a, flag, None)).
Proof.
  destruct a; cbn [option_strings In]; intros H;
    repeat (destruct H as [<-|H]; [reflexivity|]); destruct H.
Qed.

Lemma parse_optional_not_double_dash s t :
  _parse_optional s = Return t -> String.eqb s "--" = false.
Proof.
  intros H. destruct (String.eqb_spec s "--") as [E|]; [|reflexivity].
  subst s. vm_compute in H. discriminate.
Qed.

Lemma takes_one_nargs_error a :
  takes_one a = true ->
  _match_argument a [] = Raise (Build_ArgumentError (Some a) expected_one_argument).
Proof. destruct a; try discriminate; reflexivity. Qed.

Lemma parse_from_missing_value flag a os st :
  takes_one a = true ->
  parse_from [flag] [(0, (Some a, os, None))] [pat_O] 1 0 st =
  Raise (Build_ArgumentError (Some a) expected_one_argument).
Proof.
  intros Ha. rewrite parse_from_turn by apply max_first_zero.
  rewrite loop_body_option_first. unfold consume_optional.
  cbn [osi_get Nat.eqb]. unfold following. cbn [Nat.add skipn].
  rewrite (takes_one_nargs_error a Ha). reflexivity.
Qed.

(** X10. An option that closes the command line, its value missing:
    after links and options that would be accepted, the run ends with the
    error [expected one argument] on that option and status 2; a run that
    would fail without it fails the same way. *)
Theorem option_value_missing links l acts flag a :
  links_ok links ->
  typed_actions l = Some acts ->
  In flag (option_strings a) ->
  a <> help_action ->
  main (links ++ flat_map typed_strings l ++ [flag]) =
  match main (links ++ flat_map typed_strings l) with
  | Completed _ _ =>
      SystemExit 2 []
        [format_usage;
         error_line (Build_ArgumentError (Some a) expected_one_argument)]
  | o => o
  end.
Proof.
  intros Hl Ha Hf Hh.
  assert (Hone : takes_one a = true).
  { destruct a; try reflexivity; [congruence | destruct Hf]. }
  pose proof (option_string_parse flag a Hf) as Hp.
  assert (Hc : classify 0 [flag] = Return ([(0, (Some a, flag, None))], [pat_O])).
  { cbn [classify]. rewrite (parse_optional_not_double_dash _ _ Hp), Hp.
    reflexivity. }
  rewrite (main_links_typed_then links l acts [flag] _ _ Hl Ha Hc
             (or_intror eq_refl)).
  rewrite (main_links_typed links l acts Hl Ha).
  destruct (store_all acts (namespace (links_state links))) as [ns| | |] eqn:Hs;
    cbn [bind]; try reflexivity.
  cbn [length]. rewrite (parse_from_missing_value flag a flag _ Hone).
  rewrite finish_return.
  destruct (script_parsed ns) as [out ->]; [|reflexivity].
  eapply store_all_attributes;
    [apply (typed_actions_takes_one l acts Ha) | | exact Hs]. reflexivity.
Qed.

Lemma option_value_missing_witness :
  main (["a"] ++ ["-q"; "480p"] ++ ["--threads"]) =
  SystemExit 2 []
    [format_usage;
     error_line (Build_ArgumentError (Some threads_action) expected_one_argument)].
Proof.
  apply (option_value_missing ["a"] [("-q", Some "480p")]
           [(quality_action, ["480p"], "-q")] "--threads" threads_action).
  - split; [discriminate | repeat constructor].
  - reflexivity.
  - cbn. tauto.
  - discriminate.
Defined.

Lemma parse_from_unknown tok os e st :
  positionals st = [] ->
  existsb (Action_eqb links_action) (seen_actions st) = true ->
  parse_from [tok] [(0, (None, os, e))] [pat_O] 1 0 st =
  Return (namespace st, extras st ++ [tok]).
Proof.
  intros Hp Hseen. rewrite parse_from_turn by apply max_first_zero.
  rewrite loop_body_option_first. unfold consume_optional.
  cbn [osi_get Nat.eqb nth_error bind Nat.add].
  unfold parse_from. cbn [loop].
  change (Z.of_nat 1 <=? max_option_string_index [(0%nat, (None, os, e))])%Z
    with false. cbv iota. cbn [bind].
  unfold consume_positionals. cbn [positionals]. rewrite Hp.
  cbn [_match_arguments_partial length match_partial_upto combine take_positionals
       bind skipn namespace seen_actions extras].
  rewrite check_required_parsed, Hseen. cbn [bind].
  rewrite app_nil_r. reflexivity.
Qed.

(** X11. An unknown option that closes the command line: after links
    and options that would be accepted, the run ends with the error
    [unrecognized arguments] on it and status 2; a run that would fail
    without it fails the same way. *)
Theorem unknown_option_refused links l acts tok :
  links_ok links ->
  typed_actions l = Some acts ->
  unknown_option tok = true ->
  main (links ++ flat_map typed_strings l ++ [tok]) =
  match main (links ++ flat_map typed_strings l) with
  | Completed _ _ =>
      SystemExit 2 []
        [format_usage;
         error_line (Build_ArgumentError None (unrecognized_arguments [tok]))]
  | o => o
  end.
Proof.
  intros Hl Ha Hu. unfold unknown_option in Hu.
  destruct (_parse_optional tok) as [[[[[a|] os] e]|]| | |] eqn:Hp; try discriminate.
  assert (Hc : classify 0 [tok] = Return ([(0, (None, os, e))], [pat_O])).
  { cbn [classify]. rewrite (parse_optional_not_double_dash _ _ Hp), Hp.
    reflexivity. }
  rewrite (main_links_typed_then links l acts [tok] _ _ Hl Ha Hc
             (or_intror eq_refl)).
  rewrite (main_links_typed links l acts Hl Ha).
  destruct (store_all acts (namespace (links_state links))) as [ns| | |] eqn:Hs;
    cbn [bind]; try reflexivity.
  assert (Hns : attributes ns = parsed_attributes).
  { eapply store_all_attributes;
      [apply (typed_actions_takes_one l acts Ha) | | exact Hs]. reflexivity. }
  cbn [length]. rewrite parse_from_unknown; cbn [namespace seen_actions extras
                                                 positionals app]; auto.
  - rewrite finish_more, finish_return.
    destruct (script_parsed ns Hns) as [out ->]. reflexivity.
  - apply existsb_links_seen. reflexivity.
Qed.

Lemma unknown_option_refused_witness :
  main (["a"] ++ ["-t"; "4"] ++ ["--fast"]) =
  SystemExit 2 []
    [format_usage;
     error_line (Build_ArgumentError None (unrecognized_arguments ["--fast"]))].
Proof.
  apply (unknown_option_refused ["a"] [("-t", Some "4")]
           [(threads_action, ["4"], "-t")] "--fast").
  - split; [discriminate | repeat constructor].
  - reflexivity.
  - reflexivity.
Defined.

(** *** The namespace of a completed run *)

Lemma bind_return {T U : Type} (m : result T) (k : T -> result U) y :
  bind m k = Return y -> exists x, m = Return x /\ k x = Return y.
Proof. destruct m; cbn; try discriminate. eauto. Qed.

Lemma check_required_namespace actions seen req ns req' ns' :
  check_required actions seen req ns = Return (req', ns') -> ns' = ns.
Proof. rewrite check_required_names. intros H. inversion H. reflexivity. Qed.

Section Preserved.

(** A property of the namespace that every action keeps is a property of
    the namespace that [parse_args] returns. *)
Variable P : Namespace -> Prop.
Hypothesis P_take_action : forall a l st st',
  P (namespace st) -> take_action a l st = Return st' -> P (namespace st').

Lemma preserved_take_actions ats : forall st st',
  P (namespace st) -> take_actions ats st = Return st' -> P (namespace st').
Proof.
  induction ats as [|[[a l] os] ats IH]; intros st st' HP H; cbn [take_actions] in H.
  - inversion H; subst. exact HP.
  - apply bind_return in H. destruct H as [st1 [H1 H2]]. eauto.
Qed.

Lemma preserved_consume_optional arg_strings osi p i st st' j :
  P (namespace st) ->
  consume_optional arg_strings osi p i st = Return (st', j) ->
  P (namespace st').
Proof.
  intros HP H. unfold consume_optional in H.
  destruct (osi_get i osi) as [[[[a|] os] e]|]; try discriminate.
  - apply bind_return in H. destruct H as [[ats stop] [_ H]]. cbn beta iota in H.
    apply bind_return in H. destruct H as [st1 [H1 H2]].
    inversion H2; subst. eapply preserved_take_actions; eassumption.
  - destruct (nth_error arg_strings i); [|discriminate].
    inversion H; subst. exact HP.
Qed.

Lemma preserved_take_positionals arg_strings l : forall i st st' j,
  P (namespace st) ->
  take_positionals arg_strings l i st = Return (st', j) ->
  P (namespace st').
Proof.
  induction l as [|[a n] l IH]; intros i st st' j HP H; cbn [take_positionals] in H.
  - inversion H; subst. exact HP.
  - apply bind_return in H. destruct H as [st1 [H1 H2]]. eauto.
Qed.

Lemma preserved_consume_positionals arg_strings p i st st' j :
  P (namespace st) ->
  consume_positionals arg_strings p i st = Return (st', j) ->
  P (namespace st').
Proof.
  intros HP H. unfold consume_positionals in H.
  apply bind_return in H. destruct H as [[st1 stop] [H1 H2]]. cbn beta iota in H2.
  inversion H2; subst. cbn [namespace].
  eapply preserved_take_positionals; eassumption.
Qed.

Lemma preserved_loop_body arg_strings osi p i st st' j :
  P (namespace st) ->
  loop_body arg_strings osi p i st = Return (st', j) ->
  P (namespace st').
Proof.
  intros HP H. unfold loop_body in H.
  destruct (list_min _) as [next|]; [|discriminate].
  apply bind_return in H. destruct H as [[[st1 start1] continue] [H1 H2]].
  cbn beta iota in H2.
  assert (HP1 : P (namespace st1)).
  { destruct (negb (i =? next)%nat).
    - apply bind_return in H1. destruct H1 as [[st0 k] [H0 H1]].
      cbn beta iota in H1. inversion H1; subst.
      eapply preserved_consume_positionals; eassumption.
    - inversion H1; subst. exact HP. }
  destruct continue; [inversion H2; subst; exact HP1|].
  destruct (negb (existsb (Nat.eqb start1) (map fst osi)));
    eapply preserved_consume_optional; try exact H2; exact HP1.
Qed.

Lemma preserved_loop arg_strings osi p fuel : forall i st st' j,
  P (namespace st) ->
  loop arg_strings osi p fuel i st = Return (st', j) ->
  P (namespace st').
Proof.
  induction fuel as [|fuel IH]; intros i st st' j HP H; cbn [loop] in H;
    destruct (Z.of_nat i <=? max_option_string_index osi)%Z;
    try discriminate; try (inversion H; subst; exact HP).
  apply bind_return in H. destruct H as [[st1 k] [H1 H2]]. cbn beta iota in H2.
  eapply IH; [|exact H2]. eapply preserved_loop_body; eassumption.
Qed.

Lemma preserved_parse_from arg_strings osi p fuel i st ns extras' :
  P (namespace st) ->
  parse_from arg_strings osi p fuel i st = Return (ns, extras') ->
  P ns.
Proof.
  intros HP H. unfold parse_from in H.
  apply bind_return in H. destruct H as [[st1 k] [H1 H]]. cbn beta iota in H.
  apply bind_return in H. destruct H as [[st2 stop] [H2 H]]. cbn beta iota in H.
  apply bind_return in H. destruct H as [[req ns'] [H3 H]]. cbn beta iota in H.
  destruct req; [|discriminate]. inversion H; subst.
  apply check_required_namespace in H3. subst ns.
  eapply preserved_consume_positionals; [|exact H2].
  eapply preserved_loop; eassumption.
Qed.

Lemma preserved_parse_args argv args :
  P default_namespace -> parse_args argv = Return args -> P args.
Proof.
  intros HP H. unfold parse_args, parse_args_fuel, no_extras in H.
  apply bind_return in H. destruct H as [[ns extras'] [H1 H2]]. cbn beta iota in H2.
  destruct extras'; [|discriminate]. inversion H2; subst.
  unfold parse_known_args_fuel, exit_on_error in H1.
  fold default_namespace in H1.
  destruct (_parse_known_args_fuel _ _ _) as [[ns' ex]| | |] eqn:E; try discriminate.
  inversion H1; subst. unfold _parse_known_args_fuel in E.
  apply bind_return in E. destruct E as [[osi p] [_ E]]. cbn beta iota in E.
  eapply preserved_parse_from; [|exact E]. exact HP.
Qed.

Lemma preserved_main argv args out :
  P default_namespace -> main argv = Completed args out -> P args.
Proof.
  intros HP H. unfold main, script in H.
  destruct (parse_args argv) as [ns| | |] eqn:E; try discriminate.
  assert (ns = args).
  { destruct (getattr ns "verbosity") as [v|]; [|discriminate].
    destruct (truthy v); [|congruence].
    destruct (getattr ns "quality"), (getattr ns "threads"); congruence. }
  subst ns. eapply preserved_parse_args; eassumption.
Qed.

End Preserved.

Lemma take_action_return a l st st' :
  take_action a l st = Return st' ->
  a <> help_action
  /\ exists v, _get_values a l = Return v
               /\ namespace st' = setattr (namespace st) (dest a) v.
Proof.
  unfold take_action. intros H.
  apply bind_return in H. destruct H as [v [Hv H]].
  apply bind_return in H. destruct H as [ns [Hc H]]. inversion H; subst.
  cbn [namespace]. destruct a; try (inversion Hc; subst; split; [discriminate|eauto]).
  discriminate.
Qed.

Lemma dest_attribute a : a <> help_action -> In (dest a) parsed_attributes.
Proof. destruct a; cbn; tauto. Qed.

(** X12. Whatever the command line, the namespace of a run that
    completes has the four attributes [links], [verbosity], [quality] and
    [threads], in this order, and no other. *)
Theorem completed_attributes argv args out :
  main argv = Completed args out ->
  attributes args = parsed_attributes.
Proof.
  apply (preserved_main (fun ns => attributes ns = parsed_attributes));
    [|reflexivity].
  intros a l st st' HP H. destruct (take_action_return _ _ _ _ H) as [Ha [v [_ ->]]].
  rewrite setattr_attributes; [exact HP|]. rewrite HP. apply dest_attribute, Ha.
Qed.

Lemma completed_attributes_witness :
  main ["-v"; "x"; "-q"; "480p"; "a"; "-t"; "4"] =
    Completed (parsed ["a"] (PyStr "x") (PyStr "480p") (PyInt 4))
      (summary (PyStr "480p") (PyInt 4))
  /\ attributes (parsed ["a"] (PyStr "x") (PyStr "480p") (PyInt 4)) =
     parsed_attributes.
Proof.
  assert (H : main ["-v"; "x"; "-q"; "480p"; "a"; "-t"; "4"] =
              Completed (parsed ["a"] (PyStr "x") (PyStr "480p") (PyInt 4))
                (summary (PyStr "480p") (PyInt 4)))
    by (vm_compute; reflexivity).
  split; [exact H | exact (completed_attributes _ _ _ H)].
Defined.

Lemma get_values_str a l s :
  _get_values a l = Return (PyStr s) ->
  in_choices (PyStr s) (choices a) = true.
Proof.
  unfold _get_values.
  assert (Hl : forall l', (value <- get_each a l' ;; check_each a value ;;;
                           Return (PyList value)) <> Return (PyStr s)).
  { intros l' H. apply bind_return in H. destruct H as [x [_ H]].
    apply bind_return in H. destruct H as [u [_ H]]. discriminate. }
  destruct (nargs a); try (intros H; exfalso; exact (Hl _ H)).
  destruct (remove_first "--" l) as [|x [|y r]];
    try (intros H; exfalso; exact (Hl _ H)).
  intros H. apply bind_return in H. destruct H as [v [_ H]].
  apply bind_return in H. destruct H as [u [H1 H2]]. inversion H2; subst.
  unfold _check_value in H1. destruct (in_choices _ _); [reflexivity|discriminate].
Qed.

Lemma get_values_int a l z :
  _get_values a l = Return (PyInt z) ->
  in_choices (PyInt z) (choices a) = true.
Proof.
  unfold _get_values.
  assert (Hl : forall l', (value <- get_each a l' ;; check_each a value ;;;
                           Return (PyList value)) <> Return (PyInt z)).
  { intros l' H. apply bind_return in H. destruct H as [x [_ H]].
    apply bind_return in H. destruct H as [u [_ H]]. discriminate. }
  destruct (nargs a); try (intros H; exfalso; exact (Hl _ H)).
  destruct (remove_first "--" l) as [|x [|y r]];
    try (intros H; exfalso; exact (Hl _ H)).
  intros H. apply bind_return in H. destruct H as [v [_ H]].
  apply bind_return in H. destruct H as [u [H1 H2]]. inversion H2; subst.
  unfold _check_value in H1. destruct (in_choices _ _); [reflexivity|discriminate].
Qed.

(** X13. Whatever the command line, a quality that a completed run
    holds as a string is one of the three choices. *)
Theorem completed_quality argv args out q :
  main argv = Completed args out ->
  getattr args "quality" = Some (PyStr q) ->
  In q ["1080p"; "720p"; "480p"].
Proof.
  intros H. revert q.
  apply (preserved_main
           (fun ns => forall q, getattr ns "quality" = Some (PyStr q) ->
                                In q ["1080p"; "720p"; "480p"]) )
    with (argv := argv) (out := out); [| |exact H].
  - intros a l st st' HP Ht q Hq.
    destruct (take_action_return _ _ _ _ Ht) as [Ha [v [Hv E]]]. rewrite E in Hq.
    destruct (String.eqb_spec (dest a) "quality") as [Hd|Hd].
    + rewrite Hd, getattr_setattr_same in Hq. inversion Hq; subst v.
      apply get_values_str in Hv.
      assert (a = quality_action) by (destruct a; try discriminate; reflexivity).
      subst a. cbn [choices in_choices existsb pyval_eqb] in Hv.
      cbn [In].
      destruct (String.eqb_spec q "1080p"); [auto|].
      destruct (String.eqb_spec q "720p"); [auto|].
      destruct (String.eqb_spec q "480p"); [auto|]. discriminate.
    + rewrite getattr_setattr_other in Hq by exact Hd. auto.
  - intros q Hq. vm_compute in Hq. inversion Hq. cbn. tauto.
Qed.

Lemma completed_quality_witness :
  main ["--qual=480p"; "a"; "b"] =
    Completed (parsed ["a"; "b"] PyNone (PyStr "480p") (PyInt 1)) []
  /\ In "480p" ["1080p"; "720p"; "480p"].
Proof.
  assert (H : main ["--qual=480p"; "a"; "b"] =
              Completed (parsed ["a"; "b"] PyNone (PyStr "480p") (PyInt 1)) [])
    by (vm_compute; reflexivity).
  split; [exact H | exact (completed_quality _ _ _ "480p" H eq_refl)].
Defined.

(** X14. Whatever the command line, a number of threads that a
    completed run holds as an integer is between 1 and 31. *)
Theorem completed_threads argv args out z :
  main argv = Completed args out ->
  getattr args "threads" = Some (PyInt z) ->
  (1 <= z <= 31)%Z.
Proof.
  intros H. revert z.
  apply (preserved_main
           (fun ns => forall z, getattr ns "threads" = Some (PyInt z) ->
                                (1 <= z <= 31)%Z))
    with (argv := argv) (out := out); [| |exact H].
  - intros a l st st' HP Ht z Hz.
    destruct (take_action_return _ _ _ _ Ht) as [Ha [v [Hv E]]]. rewrite E in Hz.
    destruct (String.eqb_spec (dest a) "threads") as [Hd|Hd].
    + rewrite Hd, getattr_setattr_same in Hz. inversion Hz; subst v.
      apply get_values_int in Hv.
      assert (a = threads_action) by (destruct a; try discriminate; reflexivity).
      subst a. cbn [choices in_choices] in Hv.
      apply andb_true_iff in Hv. destruct Hv as [H1 H2].
      apply Z.leb_le in H1. apply Z.ltb_lt in H2. lia.
    + rewrite getattr_setattr_other in Hz by exact Hd. auto.
  - intros z Hz. vm_compute in Hz. inversion Hz. lia.
Qed.

Lemma completed_threads_witness :
  main ["a"; "-t31"] = Completed (parsed ["a"] PyNone (PyStr "720p") (PyInt 31)) []
  /\ (1 <= 31 <= 31)%Z.
Proof.
  assert (H : main ["a"; "-t31"] =
              Completed (parsed ["a"] PyNone (PyStr "720p") (PyInt 31)) [])
    by (vm_compute; reflexivity).
  split; [exact H | exact (completed_threads _ _ _ 31%Z H eq_refl)].
Defined.

(** *** Missing links, refusals, and the separator as a value *)

Lemma links_not_seen acts :
  Forall (fun t : action_tuple => takes_one (fst (fst t)) = true) acts ->
  existsb (Action_eqb links_action)
    (rev (map (fun t : action_tuple => fst (fst t)) acts) ++ []) = false.
Proof.
  intros H. rewrite app_nil_r.
  destruct (existsb _ _) eqn:E; [|reflexivity].
  apply existsb_exists in E. destruct E as [a [Hin Ha]].
  apply in_rev, in_map_iff in Hin. destruct Hin as [t [<- Hin]].
  rewrite Forall_forall in H. specialize (H t Hin).
  destruct (fst (fst t)); discriminate.
Qed.

(** Options, and no link. *)
Lemma main_typed_alone l acts :
  typed_actions l = Some acts ->
  main (flat_map typed_strings l) =
  finish (ns <- store_all acts default_namespace ;;
          error (Build_ArgumentError None (required_arguments ["links"]))).
Proof.
  intros Ha. rewrite main_unfold. f_equal. unfold _parse_known_args_fuel.
  pose proof (classify_typed l [] _ _ acts Ha eq_refl) as Hc.
  rewrite app_nil_r in Hc. rewrite Hc. cbn [bind].
  pose proof (parse_from_typed l acts [] [] [] (length (flat_map typed_strings l)) 0
                (initial_state default_namespace) Ha eq_refl) as H.
  rewrite app_nil_r in H. rewrite H by (cbn; lia). clear H.
  pose proof (typed_actions_takes_one l acts Ha) as Hone.
  rewrite (take_actions_store acts _ Hone), bind_assoc.
  cbn [initial_state namespace seen_actions positionals extras].
  destruct (store_all acts default_namespace) as [ns| | |] eqn:Hs;
    cbn [bind]; try reflexivity.
  unfold parse_from. rewrite loop_no_options. cbn [bind].
  unfold consume_positionals. cbn [positionals skipn].
  change (_match_arguments_partial _get_positional_actions []) with (@nil nat).
  change (combine _get_positional_actions []) with (@nil (Action * nat)).
  cbn [take_positionals bind namespace seen_actions].
  rewrite check_required_parsed, (links_not_seen acts Hone). reflexivity.
Qed.

(** X15. The links are required: options that are accepted when links
    follow them end, without the links, with the error
    [the following arguments are required: links] and status 2. Options
    that are refused with the links are refused the same way without them:
    what is wrong with an option is reported before the missing links. *)
Theorem links_required links l acts :
  links_ok links ->
  typed_actions l = Some acts ->
  main (flat_map typed_strings l) =
  match main (flat_map typed_strings l ++ links) with
  | Completed _ _ =>
      SystemExit 2 []
        [format_usage;
         error_line (Build_ArgumentError None (required_arguments ["links"]))]
  | o => o
  end.
Proof.
  intros Hl Ha.
  rewrite (main_typed_alone l acts Ha), (main_typed_links l acts links Hl Ha).
  destruct (store_all acts default_namespace) as [ns| | |] eqn:Hs;
    cbn [bind]; try reflexivity.
  rewrite finish_return.
  destruct (script_parsed (setattr ns "links" (PyList (map PyStr links))))
    as [out ->]; [|reflexivity].
  pose proof (store_all_attributes acts _ _ (typed_actions_takes_one l acts Ha)
                (eq_refl : attributes default_namespace = parsed_attributes) Hs)
    as Hns.
  rewrite setattr_attributes; [exact Hns|]. rewrite Hns. cbn. tauto.
Qed.

Lemma links_required_witness :
  main ["-q"; "480p"; "--threads=4"] =
    SystemExit 2 []
      [format_usage;
       error_line (Build_ArgumentError None (required_arguments ["links"]))].
Proof.
  apply (links_required ["a"] [("-q", Some "480p"); ("--threads=4", None)]
           [(quality_action, ["480p"], "-q"); (threads_action, ["4"], "--threads")]).
  - split; [discriminate | repeat constructor].
  - reflexivity.
Defined.

Lemma store_all_app acts : forall acts' ns,
  store_all (acts ++ acts') ns = ns' <- store_all acts ns ;; store_all acts' ns'.
Proof.
  induction acts as [|[[a args] os] acts IH]; intros acts' ns; [reflexivity|].
  cbn [app store_all]. rewrite bind_assoc.
  destruct (_get_values a args); cbn [bind]; try reflexivity. apply IH.
Qed.

(** X16. The run ends at the first option that is refused: when links
    and options do not complete, typing more options after them changes
    nothing. *)
Theorem first_refusal_ends_run links l acts l' acts' :
  links_ok links ->
  typed_actions l = Some acts ->
  typed_actions l' = Some acts' ->
  (forall args out, main (links ++ flat_map typed_strings l) <> Completed args out) ->
  main (links ++ flat_map typed_strings l ++ flat_map typed_strings l') =
  main (links ++ flat_map typed_strings l).
Proof.
  intros Hl Ha Ha' Hfail.
  rewrite <- flat_map_app.
  rewrite (main_links_typed links (l ++ l') _ Hl (typed_actions_app l l' _ _ Ha Ha')).
  rewrite (main_links_typed links l acts Hl Ha) in *.
  rewrite store_all_app, bind_assoc.
  destruct (store_all acts (namespace (links_state links))) as [ns| | |] eqn:Hs;
    cbn [bind] in *; try reflexivity.
  exfalso. rewrite finish_return in Hfail.
  destruct (script_parsed ns) as [out E]; [|exact (Hfail _ _ E)].
  eapply store_all_attributes;
    [apply (typed_actions_takes_one l acts Ha) | | exact Hs]. reflexivity.
Qed.

Lemma first_refusal_ends_run_witness :
  main (["a"] ++ ["-v"; "x"; "-t"; "0"] ++ ["-q"; "4k"; "--threads=2"]) =
  main (["a"] ++ ["-v"; "x"; "-t"; "0"]).
Proof.
  apply (first_refusal_ends_run ["a"] [("-v", Some "x"); ("-t", Some "0")]
           [(verbosity_action, ["x"], "-v"); (threads_action, ["0"], "-t")]
           [("-q", Some "4k"); ("--threads=2", None)]
           [(quality_action, ["4k"], "-q"); (threads_action, ["2"], "--threads")]).
  - split; [discriminate | repeat constructor].
  - reflexivity.
  - reflexivity.
  - intros args out. vm_compute. discriminate.
Defined.

(** X17. The value ["--"] given to an option after [=] is not
    validated: [_get_values] removes the first ["--"] of the strings of an
    action before they are converted and checked, so the run completes with
    the attribute of the option set to the empty list, and prints
    nothing. *)
Theorem separator_as_explicit_value links flag a :
  links_ok links ->
  In flag (option_strings a) ->
  a <> help_action ->
  main (links ++ [(flag ++ "=--")%string]) =
  Completed (setattr (parsed links PyNone (PyStr "720p") (PyInt 1)) (dest a)
               (PyList []))
    [].
Proof.
  intros Hl Hf Ha.
  assert (Ht : typed_actions [((flag ++ "=--")%string, None)] =
               Some [(a, ["--"], flag)]).
  { destruct a; cbn [option_strings In] in Hf; try congruence;
      repeat (destruct Hf as [<-|Hf]; [reflexivity|]); destruct Hf. }
  pose proof (main_links_typed links _ _ Hl Ht) as H.
  cbn [flat_map typed_strings fst snd app] in H. rewrite H. clear H Ht Hf.
  destruct a; try congruence; reflexivity.
Qed.

Lemma separator_as_explicit_value_witness :
  main (["a"] ++ ["--quality=--"]) =
  Completed (parsed ["a"] PyNone (PyList []) (PyInt 1)) [].
Proof.
  apply (separator_as_explicit_value ["a"] "--quality" quality_action).
  - split; [discriminate | repeat constructor].
  - cbn. tauto.
  - discriminate.
Defined.

(** *** The single kind of failure *)



















